(** * MAC_Changer: a shallow embedding of [Mac_changer.py]

    The development follows the layout of the Python module:

    - [PyStr]   : Python [str] values as sequences of Unicode code points,
                  with the string operations the tool relies on;
    - [Re]      : the fragment of Python's [re] that the two patterns of the
                  tool are written in, with [match] and [search];
    - [Codec]   : [validate_mac], the scan of [get_current_mac] and the
                  formatting done by [generate_random_mac];
    - [PyBytes] : [bytes] values and their UTF-8 decoding;
    - [Effects] : a state-and-exception monad over a trace of executed
                  commands and printed lines;
    - [Tool]    : the methods of [MACChanger], [main] and the [__main__]
                  handler;
    - [Spec]    : the vocabulary of the specification;
    - [Scenario]: interrupts, and sample hosts to run the tool on;
    - [Behaviour]: what a method adds to the trace and how it can end;
    - the properties, one section per subject. *)

From Stdlib Require Import String Ascii Bool ZArith NArith Lia List.
Import ListNotations.

Set Implicit Arguments.

(* ================================================================== *)
(** ** Python strings *)
(* ================================================================== *)

Module PyStr.

(** A [str] is a sequence of Unicode code points. *)
Definition char := N.
Definition str := list char.

(** The code points of an ASCII literal of the source. *)
Definition lit (s : string) : str :=
  map N_of_ascii (list_ascii_of_string s).

Definition newline : char := 10%N.

Fixpoint str_eqb (a b : str) : bool :=
  match a, b with
  | [], [] => true
  | x :: a', y :: b' => N.eqb x y && str_eqb a' b'
  | _, _ => false
  end.

(** [sep.join(parts)] *)
Fixpoint join (sep : str) (parts : list str) : str :=
  match parts with
  | [] => []
  | [p] => p
  | p :: rest => p ++ sep ++ join sep rest
  end.

(** Truthiness of a [str]: the empty string is falsy. *)
Definition truthy (s : str) : bool :=
  match s with [] => false | _ :: _ => true end.

Definition is_ascii (c : char) : bool := (c <? 128)%N.

(** ASCII lower-casing of one code point. *)
Definition ascii_lower (c : char) : char :=
  if ((65 <=? c) && (c <=? 90))%N then (c + 32)%N else c.

End PyStr.
Import PyStr.

(* ================================================================== *)
(** ** The regular expressions of the tool *)
(* ================================================================== *)

Module Re.

(** The constructs that occur in the two address patterns: the anchors
    [^] and [$], a bracketed character set, concatenation, a counted
    repetition [r{n}] and a parenthesised group. *)
Inductive regex : Type :=
| Bol
| Eol
| Class (ranges : list (char * char))
| Cat (r1 r2 : regex)
| Rep (r : regex) (n : nat)
| Group (r : regex).

Definition in_class (ranges : list (char * char)) (c : char) : bool :=
  existsb (fun rg => ((fst rg <=? c) && (c <=? snd rg))%N) ranges.

(** [match_at r pos s] matches [r] against the text [s] that starts at
    index [pos] of the subject and returns the consumed text together
    with what follows.  None of the constructs above offers a choice
    (no alternation, no open repetition), so the backtracking matcher
    of [re] has at most one way to match at a position and a function
    describes it.

    Without [re.MULTILINE], [^] matches at index 0 only and [$] matches
    at the end of the subject and just before a newline that ends the
    subject. *)
Fixpoint match_at (r : regex) (pos : nat) (s : str) : option (str * str) :=
  match r with
  | Bol => if Nat.eqb pos 0 then Some ([], s) else None
  | Eol =>
      match s with
      | [] => Some ([], s)
      | [c] => if N.eqb c newline then Some ([], s) else None
      | _ => None
      end
  | Class ranges =>
      match s with
      | c :: s' => if in_class ranges c then Some ([c], s') else None
      | [] => None
      end
  | Cat r1 r2 =>
      match match_at r1 pos s with
      | Some (a, s1) =>
          match match_at r2 (pos + length a) s1 with
          | Some (b, s2) => Some (a ++ b, s2)
          | None => None
          end
      | None => None
      end
  | Rep r0 n =>
      (fix rep (k : nat) (pos : nat) (s : str) : option (str * str) :=
         match k with
         | O => Some ([], s)
         | S k' =>
             match match_at r0 pos s with
             | Some (a, s1) =>
                 match rep k' (pos + length a) s1 with
                 | Some (b, s2) => Some (a ++ b, s2)
                 | None => None
                 end
             | None => None
             end
         end) n pos s
  | Group r0 => match_at r0 pos s
  end.

(** [pattern.match(s)]: a match that starts at index 0; the result is
    [group(0)] of the match object. *)
Definition re_match (r : regex) (s : str) : option str :=
  option_map fst (match_at r 0 s).

(** [re.search(pattern, s)]: the match at the leftmost index at which
    the pattern matches, the end of the subject included. *)
Fixpoint search_from (r : regex) (pos : nat) (s : str) : option str :=
  match match_at r pos s with
  | Some (a, _) => Some a
  | None =>
      match s with
      | [] => None
      | _ :: s' => search_from r (S pos) s'
      end
  end.

Definition re_search (r : regex) (s : str) : option str :=
  search_from r 0 s.

(** A match object is truthy, [None] is falsy. *)
Definition bool_of_match (m : option str) : bool :=
  match m with Some _ => true | None => false end.

End Re.
Import Re.

(* ================================================================== *)
(** ** Address validation, scanning and formatting *)
(* ================================================================== *)

Module Codec.

(** [[0-9A-Fa-f]] *)
Definition hex_class : regex :=
  Class [(48, 57); (65, 70); (97, 102)]%N.

(** [[:-]] *)
Definition sep_class : regex :=
  Class [(58, 58); (45, 45)]%N.

(** [([0-9A-Fa-f]{2}[:-]){5}([0-9A-Fa-f]{2})], the pattern of
    [get_current_mac]. *)
Definition mac_pattern : regex :=
  Cat (Rep (Group (Cat (Rep hex_class 2) sep_class)) 5)
      (Group (Rep hex_class 2)).

(** [^([0-9A-Fa-f]{2}[:-]){5}([0-9A-Fa-f]{2})$], the pattern of
    [validate_mac]. *)
Definition validate_pattern : regex :=
  Cat Bol (Cat mac_pattern Eol).

(** [validate_mac]: [bool(pattern.match(mac))]. *)
Definition validate_mac (mac : str) : bool :=
  bool_of_match (re_match validate_pattern mac).

(** The scan of [get_current_mac] over the decoded command output:
    [re.search(...)], then [group(0)] or [None]. *)
Definition search_mac (result : str) : option str :=
  re_search mac_pattern result.

(** One lower-case hexadecimal digit, for a value in [0, 15]. *)
Definition hex_digit (d : Z) : char :=
  Z.to_N (if d <? 10 then 48 + d else 87 + d)%Z.

(** The hexadecimal digits of a non-negative integer, most significant
    first; [fuel] bounds the number of digits. *)
Fixpoint hex_digits (fuel : nat) (n : Z) : str :=
  match fuel with
  | O => []
  | S f =>
      if (n <? 16)%Z then [hex_digit n]
      else hex_digits f (n / 16)%Z ++ [hex_digit (n mod 16)%Z]
  end.

Definition to_hex (n : Z) : str :=
  hex_digits (S (Z.to_nat (Z.log2 n))) n.

Definition zero_fill (width : nat) (digits : str) : str :=
  repeat 48%N (width - List.length digits) ++ digits.

(** [f'{octet:02x}']: lower-case hexadecimal, zero-filled to a width of
    two, the sign counted in the width. *)
Definition format_02x (octet : Z) : str :=
  if (octet <? 0)%Z then 45%N :: zero_fill 1 (to_hex (- octet))
  else zero_fill 2 (to_hex octet).

(** [mac[0] = (mac[0] & 0xfe) | 0x02] *)
Definition set_local_unicast (mac : list Z) : list Z :=
  match mac with
  | m0 :: rest => Z.lor (Z.land m0 0xfe) 0x02 :: rest
  | [] => []
  end.

(** [':'.join(f'{octet:02x}' for octet in mac)] *)
Definition format_mac (mac : list Z) : str :=
  join [58%N] (map format_02x mac).

(** [int(text, 16)] on a text of hexadecimal digits, used to read an
    octet back from its textual form. *)
Definition hex_value (c : char) : option Z :=
  if ((48 <=? c) && (c <=? 57))%N then Some (Z.of_N c - 48)%Z
  else if ((97 <=? c) && (c <=? 102))%N then Some (Z.of_N c - 87)%Z
  else if ((65 <=? c) && (c <=? 70))%N then Some (Z.of_N c - 55)%Z
  else None.

Fixpoint int16_from (acc : Z) (text : str) : option Z :=
  match text with
  | [] => Some acc
  | c :: rest =>
      match hex_value c with
      | Some d => int16_from (16 * acc + d)%Z rest
      | None => None
      end
  end.

Definition int16 (text : str) : option Z :=
  match text with [] => None | _ => int16_from 0%Z text end.

End Codec.
Import Codec.

(* ================================================================== *)
(** ** Bytes and their decoding *)
(* ================================================================== *)

Module PyBytes.

Definition bytes := list Byte.byte.

(** Truthiness of a [bytes] object. *)
Definition truthy (b : bytes) : bool :=
  match b with [] => false | _ :: _ => true end.

Definition continuation (b : N) : bool := ((0x80 <=? b) && (b <=? 0xBF))%N.

Definition low6 (b : N) : N := (b - 0x80)%N.

(** Strict UTF-8 decoding of a sequence of byte values: shortest forms
    only, no surrogates, nothing above U+10FFFF.  [None] stands for
    [UnicodeDecodeError]. *)
Fixpoint utf8_decode (bs : list N) : option str :=
  match bs with
  | [] => Some []
  | b0 :: t0 =>
      if (b0 <? 0x80)%N then option_map (cons b0) (utf8_decode t0)
      else if ((0xC2 <=? b0) && (b0 <=? 0xDF))%N then
        match t0 with
        | b1 :: t1 =>
            if continuation b1
            then option_map (cons ((b0 - 0xC0) * 64 + low6 b1)%N)
                            (utf8_decode t1)
            else None
        | _ => None
        end
      else if ((0xE0 <=? b0) && (b0 <=? 0xEF))%N then
        match t0 with
        | b1 :: b2 :: t2 =>
            if continuation b1 && continuation b2
               && (negb (b0 =? 0xE0) || (0xA0 <=? b1))%N
               && (negb (b0 =? 0xED) || (b1 <=? 0x9F))%N
            then option_map
                   (cons ((b0 - 0xE0) * 4096 + low6 b1 * 64 + low6 b2)%N)
                   (utf8_decode t2)
            else None
        | _ => None
        end
      else if ((0xF0 <=? b0) && (b0 <=? 0xF4))%N then
        match t0 with
        | b1 :: b2 :: b3 :: t3 =>
            if continuation b1 && continuation b2 && continuation b3
               && (negb (b0 =? 0xF0) || (0x90 <=? b1))%N
               && (negb (b0 =? 0xF4) || (b1 <=? 0x8F))%N
            then option_map
                   (cons ((b0 - 0xF0) * 262144 + low6 b1 * 4096
                          + low6 b2 * 64 + low6 b3)%N)
                   (utf8_decode t3)
            else None
        | _ => None
        end
      else None
  end.

(** [b.decode('utf-8')] *)
Definition decode (b : bytes) : option str :=
  utf8_decode (map Byte.to_N b).

(** The bytes of an ASCII literal. *)
Definition blit (s : string) : bytes :=
  map byte_of_ascii (list_ascii_of_string s).

End PyBytes.
Import PyBytes.

(* ================================================================== *)
(** ** Effects: commands, printing, random draws, exceptions *)
(* ================================================================== *)

Module Effects.

(** What the process does to the outside, in order. *)
Inductive event : Type :=
| Print (line : str)
| Exec (argv : list str).

(** How a child process ends: it exits, it cannot be started
    ([FileNotFoundError] and the like), or the user interrupts the
    wait for it. *)
Inductive proc_result : Type :=
| Exited (returncode : Z) (stdout stderr : bytes)
| SpawnFailed (msg : str)
| Interrupted.

(** The exceptions below [Exception]. *)
Inductive exception : Type :=
| CalledProcessError (cmd : list str) (returncode : Z)
                     (stderr : option bytes)
| UnicodeDecodeError (object : bytes)
| OSError (msg : str).

(** What a [raise] can carry up to [__main__]: [KeyboardInterrupt] and
    [SystemExit] derive from [BaseException], not from [Exception]. *)
Inductive exn : Type :=
| Exc (e : exception)
| KeyboardInterrupt
| SystemExit (code : Z).

(** The host the tool runs on. *)
Record host : Type := {
  system : str;
  os_run : list event -> list str -> proc_result;
  entropy : nat -> Z
}.

Record world : Type := {
  trace : list event;
  draws : nat
}.

Inductive result (A : Type) : Type :=
| Ok (a : A)
| Raise (e : exn).
Arguments Ok {A} a.
Arguments Raise {A} e.

Definition M (A : Type) : Type := world -> result A * world.

Definition ret {A} (a : A) : M A := fun w => (Ok a, w).

Definition bind {A B} (c : M A) (k : A -> M B) : M B :=
  fun w =>
    match c w with
    | (Ok a, w') => k a w'
    | (Raise e, w') => (Raise e, w')
    end.

Definition raise {A} (e : exn) : M A := fun w => (Raise e, w).

(** [try: body except ...:], the clauses given as a partial map from
    the exception raised to the clause that handles it. *)
Definition try_except {A} (body : M A) (clauses : exn -> option (M A))
  : M A :=
  fun w =>
    match body w with
    | (Ok a, w') => (Ok a, w')
    | (Raise e, w') =>
        match clauses e with
        | Some handler => handler w'
        | None => (Raise e, w')
        end
    end.

Definition emit (ev : event) : M unit :=
  fun w => (Ok tt, {| trace := trace w ++ [ev]; draws := draws w |}).

(** [print(line)] *)
Definition print (line : str) : M unit := emit (Print line).

(** [sys.exit(code)] *)
Definition sys_exit {A} (code : Z) : M A := raise (SystemExit code).

Section OnHost.
Variable H : host.

(** Start [argv] and wait for it. *)
Definition spawn (argv : list str) : M (Z * bytes * bytes) :=
  fun w =>
    let w' := {| trace := trace w ++ [Exec argv]; draws := draws w |} in
    match os_run H (trace w) argv with
    | Exited rc out err => (Ok (rc, out, err), w')
    | SpawnFailed msg => (Raise (Exc (OSError msg)), w')
    | Interrupted => (Raise KeyboardInterrupt, w')
    end.

(** [subprocess.check_output(argv, stderr=subprocess.DEVNULL)] *)
Definition check_output (argv : list str) : M bytes :=
  bind (spawn argv) (fun r =>
    match r with
    | (rc, out, _) =>
        if (rc =? 0)%Z then ret out
        else raise (Exc (CalledProcessError argv rc None))
    end).

(** [subprocess.run(argv, check=..., stderr=...)]; [piped] tells
    whether [stderr=subprocess.PIPE]. *)
Definition run (argv : list str) (check piped : bool) : M unit :=
  bind (spawn argv) (fun r =>
    match r with
    | (rc, _, err) =>
        if check && negb (rc =? 0)%Z
        then raise (Exc (CalledProcessError argv rc
                           (if piped then Some err else None)))
        else ret tt
    end).

(** [random.randint(lo, hi)]: an integer between [lo] and [hi], both
    included, taken from the next raw draw of the generator. *)
Definition randint (lo hi : Z) : M Z :=
  fun w =>
    (Ok (lo + entropy H (draws w) mod (hi - lo + 1))%Z,
     {| trace := trace w; draws := S (draws w) |}).

End OnHost.

(** [[c for _ in range(n)]] *)
Fixpoint replicateM {A} (n : nat) (c : M A) : M (list A) :=
  match n with
  | O => ret []
  | S n' => bind c (fun x => bind (replicateM n' c) (fun xs => ret (x :: xs)))
  end.

(** [for x in xs: body(x)] *)
Fixpoint for_each {A} (xs : list A) (body : A -> M unit) : M unit :=
  match xs with
  | [] => ret tt
  | x :: rest => bind (body x) (fun _ => for_each rest body)
  end.

(** The commands started so far. *)
Definition commands (t : list event) : list (list str) :=
  flat_map (fun ev => match ev with Exec argv => [argv] | Print _ => [] end) t.

End Effects.
Import Effects.

Declare Scope py_scope.
Delimit Scope py_scope with py.
Notation "x <- c1 ;; c2" := (bind c1 (fun x => c2))
  (at level 61, c1 at next level, right associativity) : py_scope.
Notation "c1 ;; c2" := (bind c1 (fun _ => c2))
  (at level 61, right associativity) : py_scope.

(* ================================================================== *)
(** ** The tool *)
(* ================================================================== *)

Module Tool.

Local Open Scope string_scope.
Local Open Scope list_scope.
Local Open Scope py_scope.

(** Library results the tool only passes on: how [str.lower] treats
    text with code points outside ASCII, how [strip().split()] and
    [re.findall(r'\d+: ([^:]+):', ...)] cut a listing into names, the
    text of library exceptions and of the [argparse] help. *)
Record pylib : Type := {
  unicode_lower : str -> str;
  strip_split : str -> list str;
  findall_link_names : str -> list str;
  str_of_called_process_error : list str -> Z -> str;
  str_of_decode_error : bytes -> str;
  help_text : str
}.

(** [class Colors] *)
Module Colors.
Definition esc : char := 27%N.
Definition HEADER : str := esc :: lit "[95m".
Definition BLUE : str := esc :: lit "[94m".
Definition CYAN : str := esc :: lit "[96m".
Definition GREEN : str := esc :: lit "[92m".
Definition YELLOW : str := esc :: lit "[93m".
Definition RED : str := esc :: lit "[91m".
Definition END : str := esc :: lit "[0m".
Definition BOLD : str := esc :: lit "[1m".
End Colors.

(** The parsed command line, as [parser.parse_args()] returns it. *)
Record Args : Type := {
  args_interface : option str;
  args_mac : option str;
  args_random : bool;
  args_list : bool;
  args_show : bool
}.

(** Truthiness of an optional string: [None] and [''] are falsy. *)
Definition truthy_opt (o : option str) : bool :=
  match o with Some s => PyStr.truthy s | None => false end.

(** [f'{text:15}'] *)
Definition ljust (width : nat) (text : str) : str :=
  text ++ repeat 32%N (width - List.length text).

(** An object of [class MACChanger]. *)
Record MACChanger : Type := { self_system : str }.

Section WithHost.
Variable H : host.
Variable L : pylib.

(** [s.lower()] *)
Definition lower (s : str) : str :=
  if forallb is_ascii s then map ascii_lower s else unicode_lower L s.

(** [str(e)] for an exception below [Exception]. *)
Definition str_of_exception (e : exception) : str :=
  match e with
  | CalledProcessError cmd rc _ => str_of_called_process_error L cmd rc
  | UnicodeDecodeError object => str_of_decode_error L object
  | OSError msg => msg
  end.

(** [b.decode('utf-8')], raising on ill-formed input. *)
Definition decode_utf8 (b : bytes) : M str :=
  match decode b with
  | Some text => ret text
  | None => raise (Exc (UnicodeDecodeError b))
  end.

Definition _success (message : str) : M unit :=
  print (Colors.GREEN ++ lit "[+] " ++ message ++ Colors.END).

Definition _info (message : str) : M unit :=
  print (Colors.BLUE ++ lit "[*] " ++ message ++ Colors.END).

Definition _warning (message : str) : M unit :=
  print (Colors.YELLOW ++ lit "[!] " ++ message ++ Colors.END).

Definition _error (message : str) : M unit :=
  print (Colors.RED ++ lit "[-] " ++ message ++ Colors.END).

Definition banner : str :=
  [newline] ++ Colors.CYAN ++ Colors.BOLD ++ [newline]
  ++ [0x2554%N] ++ repeat 0x2550%N 55 ++ [0x2557%N] ++ [newline]
  ++ [0x2551%N]
  ++ lit "           MAC ADDRESS CHANGER TOOL v1.0               "
  ++ [0x2551%N] ++ [newline]
  ++ [0x2551%N]
  ++ lit "        Network Interface MAC Manipulation             "
  ++ [0x2551%N] ++ [newline]
  ++ [0x2551%N]
  ++ lit "        For Educational & Authorized Testing           "
  ++ [0x2551%N] ++ [newline]
  ++ [0x255A%N] ++ repeat 0x2550%N 55 ++ [0x255D%N] ++ [newline]
  ++ Colors.END ++ [newline]
  ++ lit "        ".

Definition _print_banner : M unit := print banner.

(** [MACChanger()] *)
Definition __init__ : M MACChanger :=
  let self := {| self_system := system H |} in
  if negb (existsb (str_eqb (self_system self))
                   [lit "Linux"; lit "Darwin"])
  then _error (lit "This tool currently supports Linux and macOS only.") ;;
       sys_exit 1
  else ret self.

Definition get_current_mac (self : MACChanger) (interface : str)
  : M (option str) :=
  try_except
    (result <- (if str_eqb (self_system self) (lit "Darwin")
                then check_output H [lit "ifconfig"; interface]
                else check_output H
                       [lit "ip"; lit "link"; lit "show"; interface]) ;;
     result <- decode_utf8 result ;;
     ret (search_mac result))
    (fun e =>
       match e with
       | Exc (CalledProcessError _ _ _) =>
           Some (_error (lit "Interface '" ++ interface
                         ++ lit "' not found or no permission.") ;;
                 ret None)
       | Exc e =>
           Some (_error (lit "Error getting MAC address: "
                         ++ str_of_exception e) ;;
                 ret None)
       | _ => None
       end).

Definition generate_random_mac : M str :=
  mac <- replicateM 6 (randint H 0x00 0xff) ;;
  ret (format_mac (set_local_unicast mac)).

Definition change_mac (self : MACChanger) (interface new_mac : str)
  : M bool :=
  if negb (validate_mac new_mac)
  then _error (lit "Invalid MAC address format. Use format: XX:XX:XX:XX:XX:XX") ;;
       ret false
  else
    _info (lit "Changing MAC address for " ++ interface
           ++ lit " to " ++ new_mac) ;;
    try_except
      ((if str_eqb (self_system self) (lit "Darwin")
        then
          run H [lit "sudo"; lit "airport"; lit "-z"] false false ;;
          run H [lit "sudo"; lit "ifconfig"; interface; lit "ether";
                 new_mac] true true
        else
          run H [lit "sudo"; lit "ip"; lit "link"; lit "set"; interface;
                 lit "down"] true true ;;
          run H [lit "sudo"; lit "ip"; lit "link"; lit "set"; interface;
                 lit "address"; new_mac] true true ;;
          run H [lit "sudo"; lit "ip"; lit "link"; lit "set"; interface;
                 lit "up"] true true) ;;
       ret true)
      (fun e =>
         match e with
         | Exc (CalledProcessError _ _ stderr) =>
             Some (detail <- match stderr with
                             | Some err =>
                                 if PyBytes.truthy err then decode_utf8 err
                                 else ret (lit "Unknown")
                             | None => ret (lit "Unknown")
                             end ;;
                   _error (lit "Failed to change MAC address. Error: "
                           ++ detail) ;;
                   _warning (lit "Make sure you have sudo privileges.") ;;
                   ret false)
         | Exc e =>
             Some (_error (lit "Unexpected error: " ++ str_of_exception e) ;;
                   ret false)
         | _ => None
         end).

Definition list_interfaces (self : MACChanger) : M unit :=
  _info (lit "Available network interfaces:") ;;
  try_except
    (interfaces <-
       (if str_eqb (self_system self) (lit "Darwin")
        then result <- check_output H [lit "ifconfig"; lit "-l"] ;;
             text <- decode_utf8 result ;;
             ret (strip_split L text)
        else result <- check_output H [lit "ip"; lit "link"; lit "show"] ;;
             text <- decode_utf8 result ;;
             ret (findall_link_names L text)) ;;
     for_each interfaces (fun iface =>
       mac <- get_current_mac self iface ;;
       if truthy_opt mac
       then print (lit "  " ++ [0x2022%N] ++ lit " " ++ ljust 15 iface
                   ++ lit " MAC: "
                   ++ match mac with Some m => m | None => [] end)
       else print (lit "  " ++ [0x2022%N] ++ lit " " ++ ljust 15 iface
                   ++ lit " MAC: N/A")))
    (fun e =>
       match e with
       | Exc e =>
           Some (_error (lit "Error listing interfaces: "
                         ++ str_of_exception e))
       | _ => None
       end).

Definition verify_change (self : MACChanger) (interface expected_mac : str)
  : M bool :=
  current_mac <- get_current_mac self interface ;;
  match current_mac with
  | Some current =>
      if PyStr.truthy current
         && str_eqb (lower current) (lower expected_mac)
      then _success (lit "MAC address successfully changed to "
                     ++ current) ;;
           ret true
      else _error (lit "MAC address change verification failed.") ;;
           ret false
  | None =>
      _error (lit "MAC address change verification failed.") ;;
      ret false
  end.

(** [main()], from the parsed arguments on. *)
Definition main (args : Args) : M unit :=
  changer <- __init__ ;;
  _print_banner ;;
  (if args_list args
   then list_interfaces changer ;; sys_exit 0
   else ret tt) ;;
  (if negb (truthy_opt (args_interface args)) && negb (args_list args)
   then print (help_text L) ;; sys_exit 1
   else ret tt) ;;
  let interface :=
    match args_interface args with Some i => i | None => [] end in
  (if args_show args
   then current_mac <- get_current_mac changer interface ;;
        (match current_mac with
         | Some current =>
             if PyStr.truthy current
             then _info (lit "Current MAC address for " ++ interface
                         ++ lit ": " ++ current)
             else ret tt
         | None => ret tt
         end) ;;
        sys_exit 0
   else ret tt) ;;
  old_mac <- get_current_mac changer interface ;;
  (if negb (truthy_opt old_mac) then sys_exit 1 else ret tt) ;;
  _info (lit "Current MAC address: "
         ++ match old_mac with Some m => m | None => [] end) ;;
  new_mac <-
    (if args_random args
     then new_mac <- generate_random_mac ;;
          _info (lit "Generated random MAC: " ++ new_mac) ;;
          ret new_mac
     else match args_mac args with
          | Some m =>
              if PyStr.truthy m then ret m
              else _error (lit "Please specify either -m/--mac or -r/--random") ;;
                   sys_exit 1
          | None =>
              _error (lit "Please specify either -m/--mac or -r/--random") ;;
              sys_exit 1
          end) ;;
  changed <- change_mac changer interface new_mac ;;
  if changed
  then verify_change changer interface new_mac ;; ret tt
  else sys_exit 1.

(** The [if __name__ == "__main__":] block. *)
Definition dunder_main (args : Args) : M unit :=
  try_except (main args)
    (fun e =>
       match e with
       | KeyboardInterrupt =>
           Some (print ([newline] ++ Colors.YELLOW
                        ++ lit "[!] Operation cancelled by user."
                        ++ Colors.END) ;;
                 sys_exit 0)
       | Exc e =>
           Some (print (Colors.RED ++ lit "[-] Unexpected error: "
                        ++ str_of_exception e ++ Colors.END) ;;
                 sys_exit 1)
       | SystemExit _ => None
       end).

(** The exit status of the process: [SystemExit] carries it, a normal
    return gives 0, an exception that nothing handles ends the
    interpreter with status 1, and an unhandled [KeyboardInterrupt]
    ends it as the interrupt signal does (128 + 2). *)
Definition exit_status (r : result unit) : Z :=
  match r with
  | Ok _ => 0
  | Raise (SystemExit code) => code
  | Raise KeyboardInterrupt => 130
  | Raise (Exc _) => 1
  end.

Definition run_tool (args : Args) (w : world) : Z :=
  exit_status (fst (dunder_main args w)).

End WithHost.

Definition initial_world : world := {| trace := []; draws := 0 |}.

End Tool.
Import Tool.

(* ================================================================== *)
(** ** The vocabulary of the specification *)
(* ================================================================== *)

Module Spec.

(** A hexadecimal digit, in either case. *)
Definition hex_digit_char (c : char) : Prop :=
  (48 <= c <= 57 \/ 65 <= c <= 70 \/ 97 <= c <= 102)%N.

(** A hexadecimal digit that is not an upper-case letter. *)
Definition lower_hex_digit_char (c : char) : Prop :=
  (48 <= c <= 57 \/ 97 <= c <= 102)%N.

(** A group of exactly two hexadecimal digits, none of them an
    upper-case letter. *)
Definition lower_hex_group (g : str) : Prop :=
  length g = 2 /\ Forall lower_hex_digit_char g.

(** [:] or [-]. *)
Definition separator (c : char) : Prop := (c = 58 \/ c = 45)%N.

(** A group of exactly two hexadecimal digits. *)
Definition hex_group (g : str) : Prop :=
  length g = 2 /\ Forall hex_digit_char g.

(** A first group followed by further groups, each behind its own
    separator. *)
Fixpoint joined (g : str) (more : list (char * str)) : str :=
  match more with
  | [] => g
  | (sep, g') :: rest => g ++ sep :: joined g' rest
  end.

Definition separated_groups (n : nat) (t : str) : Prop :=
  exists g more,
    length more = n /\ hex_group g
    /\ Forall (fun p => separator (fst p) /\ hex_group (snd p)) more
    /\ t = joined g more.

(** Six 2-digit hexadecimal groups, each two neighbours separated by
    [:] or [-], and nothing else. *)
Definition six_hex_groups (t : str) : Prop := separated_groups 5 t.

(** [sub] occurs in [raw] at index [i]. *)
Definition occurs_at (sub raw : str) (i : nat) : Prop :=
  exists pre post, length pre = i /\ raw = pre ++ sub ++ post.

(** Some six-group text occurs in [raw]. *)
Definition has_mac_substring (raw : str) : Prop :=
  exists sub i, six_hex_groups sub /\ occurs_at sub raw i.

(** [sub] is the leftmost six-group text that occurs in [raw]. *)
Definition leftmost_mac (raw sub : str) : Prop :=
  exists i,
    six_hex_groups sub /\ occurs_at sub raw i
    /\ forall sub' j, six_hex_groups sub' -> occurs_at sub' raw j -> i <= j.

(** The case of a hexadecimal letter flipped; other code points are
    left alone. *)
Definition flip_hex_case (c : char) : char :=
  if ((97 <=? c) && (c <=? 102))%N then (c - 32)%N
  else if ((65 <=? c) && (c <=? 70))%N then (c + 32)%N
  else c.

(** The groups of a text: what lies between its separators. *)
Fixpoint split_groups (t : str) : list str :=
  match t with
  | [] => [[]]
  | c :: rest =>
      if ((c =? 58) || (c =? 45))%N then [] :: split_groups rest
      else match split_groups rest with
           | g :: gs => (c :: g) :: gs
           | [] => [[c]]
           end
  end.

End Spec.
Import Spec.

(* ================================================================== *)
(** ** Interrupts, and hosts to run the tool on *)
(* ================================================================== *)

Module Scenario.

Local Open Scope string_scope.
Local Open Scope list_scope.

(** Among the events [added] behind the trace [before] there is a
    command whose wait the user interrupted. *)
Definition interrupted_in (H : host) (before added : list event) : Prop :=
  exists pre argv post,
    added = pre ++ Exec argv :: post
    /\ os_run H (before ++ pre) argv = Interrupted.

(** Between the traces [before] and [after] a command was interrupted. *)
Definition interrupted_during (H : host) (before after : list event) : Prop :=
  exists added, after = before ++ added /\ interrupted_in H before added.

(** A computation lets an interrupt through: it only adds to the trace,
    and when one of the commands it starts is interrupted it ends in
    [KeyboardInterrupt]. *)
Definition transparent (H : host) {A : Type} (c : M A) : Prop :=
  forall w r w',
    c w = (r, w') ->
    exists added,
      trace w' = trace w ++ added
      /\ (interrupted_in H (trace w) added -> r = Raise KeyboardInterrupt).

(** Stand-ins for the library results the tool passes on. *)
Definition sample_lib : pylib := {|
  unicode_lower := fun s => s;
  strip_split := fun s => [s];
  findall_link_names := fun _ => [lit "lo"; lit "eth0"];
  str_of_called_process_error := fun _ _ => lit "non-zero exit status";
  str_of_decode_error := fun _ => lit "invalid start byte";
  help_text := lit "usage: Mac_changer.py [-h] [-i INTERFACE]"
|}.

(** The address a Linux host shows for its interface: the one of the
    last [ip link set ... address ...] in the history, else the factory
    one. *)
Fixpoint shown_address (history : list event) (current : str) : str :=
  match history with
  | [] => current
  | Exec [_; _; _; _; _; word; mac] :: rest =>
      if str_eqb word (lit "address") then shown_address rest mac
      else shown_address rest current
  | _ :: rest => shown_address rest current
  end.

Definition utf8_of_ascii (s : str) : bytes :=
  map (fun c => byte_of_ascii (ascii_of_N c)) s.

Definition link_show (history : list event) : bytes :=
  blit "2: eth0: <BROADCAST,MULTICAST,UP> mtu 1500 state UP"
  ++ blit "    link/ether "
  ++ utf8_of_ascii (shown_address history (lit "02:1a:3c:4d:5e:6f"))
  ++ blit " brd ff:ff:ff:ff:ff:ff".

(** A Linux host on which every command succeeds. *)
Definition linux_host : host := {|
  system := lit "Linux";
  os_run := fun history argv =>
    match argv with
    | first :: _ =>
        if str_eqb first (lit "ip") then Exited 0 (link_show history) []
        else Exited 0 [] []
    | [] => Exited 0 [] []
    end;
  entropy := fun n => (Z.of_nat n * 4099 + 77)%Z
|}.

(** The same host, with the user pressing Ctrl-C while [sudo] runs. *)
Definition interrupting_host : host := {|
  system := lit "Linux";
  os_run := fun history argv =>
    match argv with
    | first :: _ =>
        if str_eqb first (lit "ip") then Exited 0 (link_show history) []
        else Interrupted
    | [] => Exited 0 [] []
    end;
  entropy := fun n => (Z.of_nat n * 4099 + 77)%Z
|}.

Definition set_mac_args (mac : str) : Args := {|
  args_interface := Some (lit "eth0");
  args_mac := Some mac;
  args_random := false;
  args_list := false;
  args_show := false
|}.

End Scenario.
Import Scenario.

(* ================================================================== *)
(** ** What a method does to the host, and how it can end *)
(* ================================================================== *)

Module Behaviour.

Local Open Scope string_scope.
Local Open Scope list_scope.

(** Every event that a computation adds to the trace satisfies [Q]. *)
Definition emits (Q : event -> Prop) {A : Type} (c : M A) : Prop :=
  forall w r w',
    c w = (r, w') ->
    exists added, trace w' = trace w ++ added /\ Forall Q added.

(** A computation returns, or raises something that satisfies [R]. *)
Definition raises (R : exn -> Prop) {A : Type} (c : M A) : Prop :=
  forall w r w',
    c w = (r, w') ->
    match r with
    | Ok _ => True
    | Raise e => R e
    end.

(** A command line that goes through [sudo]. *)
Definition is_sudo (argv : list str) : bool :=
  match argv with
  | first :: _ => str_eqb first (lit "sudo")
  | [] => false
  end.

(** An event that changes nothing on the host: a printed line, or a
    command that does not go through [sudo]. *)
Definition unprivileged (ev : event) : Prop :=
  match ev with
  | Exec argv => is_sudo argv = false
  | Print _ => True
  end.

(** Only the interrupt comes out. *)
Definition only_interrupt (e : exn) : Prop := e = KeyboardInterrupt.




(** The platforms that [MACChanger()] accepts. *)
Definition supported (H : host) : Prop :=
  system H = lit "Linux" \/ system H = lit "Darwin".

(** The command with which an object reads the address of an
    interface. *)
Definition read_command (self : MACChanger) (interface : str) : list str :=
  if str_eqb (self_system self) (lit "Darwin")
  then [lit "ifconfig"; interface]
  else [lit "ip"; lit "link"; lit "show"; interface].

(** The command with which an object lists the interfaces. *)
Definition list_command (self : MACChanger) : list str :=
  if str_eqb (self_system self) (lit "Darwin")
  then [lit "ifconfig"; lit "-l"]
  else [lit "ip"; lit "link"; lit "show"].

(** The commands with which an object sets an address. *)
Definition change_commands (self : MACChanger) (interface new_mac : str)
  : list (list str) :=
  if str_eqb (self_system self) (lit "Darwin")
  then [ [lit "sudo"; lit "airport"; lit "-z"];
         [lit "sudo"; lit "ifconfig"; interface; lit "ether"; new_mac] ]
  else [ [lit "sudo"; lit "ip"; lit "link"; lit "set"; interface; lit "down"];
         [lit "sudo"; lit "ip"; lit "link"; lit "set"; interface;
          lit "address"; new_mac];
         [lit "sudo"; lit "ip"; lit "link"; lit "set"; interface; lit "up"] ].


(** The world once a line is printed. *)
Definition printed (line : str) (w : world) : world :=
  {| trace := trace w ++ [Print line]; draws := draws w |}.

(** The world once a command is started. *)
Definition started (argv : list str) (w : world) : world :=
  {| trace := trace w ++ [Exec argv]; draws := draws w |}.

(** The line that [_info] prints for a message. *)
Definition info_line (message : str) : str :=
  Colors.BLUE ++ lit "[*] " ++ message ++ Colors.END.

(** The world once [change_mac] has announced what it is about to do. *)
Definition announced (interface new_mac : str) (w : world) : world :=
  printed (info_line (lit "Changing MAC address for " ++ interface
                      ++ lit " to " ++ new_mac)) w.

(** The three commands of [change_mac] on Linux. *)
Definition down_command (interface : str) : list str :=
  [lit "sudo"; lit "ip"; lit "link"; lit "set"; interface; lit "down"].

Definition address_command (interface new_mac : str) : list str :=
  [lit "sudo"; lit "ip"; lit "link"; lit "set"; interface;
   lit "address"; new_mac].

Definition up_command (interface : str) : list str :=
  [lit "sudo"; lit "ip"; lit "link"; lit "set"; interface; lit "up"].

(** The two commands of [change_mac] on macOS. *)
Definition airport_command : list str :=
  [lit "sudo"; lit "airport"; lit "-z"].

Definition ether_command (interface new_mac : str) : list str :=
  [lit "sudo"; lit "ifconfig"; interface; lit "ether"; new_mac].


(** The world once the banner is printed. *)
Definition greeted (w : world) : world := printed banner w.

(** An event that is no unchecked change: a printed line, a command
    that does not go through [sudo], or one of the commands that set, on
    this interface, an address that passes [validate_mac]. *)
Definition checked_change (self : MACChanger) (interface : str)
           (ev : event) : Prop :=
  match ev with
  | Exec argv =>
      is_sudo argv = false
      \/ exists a, validate_mac a = true
                   /\ In argv (change_commands self interface a)
  | Print _ => True
  end.

(** The interface that the command line names. *)
Definition interface_of (args : Args) : str :=
  match args_interface args with Some i => i | None => [] end.

(** The parsed command line with another [--mac]. *)
Definition with_mac (args : Args) (mac : option str) : Args := {|
  args_interface := args_interface args;
  args_mac := mac;
  args_random := args_random args;
  args_list := args_list args;
  args_show := args_show args
|}.

(** The octets of an address text: its groups read as hexadecimal. *)
Definition octets_of (text : str) : list (option Z) :=
  map int16 (split_groups text).

(** A host of a given platform that answers commands by [answer]. *)
Definition host_of (platform : str)
           (answer : list event -> list str -> proc_result) : host := {|
  system := platform;
  os_run := answer;
  entropy := fun n => (Z.of_nat n * 4099 + 77)%Z
|}.

(** The [n]-th word of a command line. *)
Definition word (n : nat) (argv : list str) : str := nth n argv [].

(** A Linux host that refuses to set an address: [ip link set ... address]
    exits with status 2 and a message on its standard error. *)
Definition refusing_host : host :=
  host_of (lit "Linux") (fun history argv =>
    if str_eqb (word 0 argv) (lit "ip")
    then Exited 0 (link_show history) []
    else if str_eqb (word 5 argv) (lit "address")
         then Exited 2 [] (blit "RTNETLINK answers: Operation not permitted")
         else Exited 0 [] []).


(** A Linux host on which every command succeeds and the address shown
    never changes. *)
Definition stubborn_host : host :=
  host_of (lit "Linux") (fun history argv =>
    if str_eqb (word 0 argv) (lit "ip")
    then Exited 0 (link_show []) []
    else Exited 0 [] []).

(** A Linux host without the interface asked for. *)
Definition bare_host : host :=
  host_of (lit "Linux") (fun history argv =>
    if str_eqb (word 0 argv) (lit "ip")
    then Exited 1 [] (blit "Device does not exist.")
    else Exited 0 [] []).

(** A macOS host: [airport -z] fails, everything else succeeds. *)
Definition darwin_host : host :=
  host_of (lit "Darwin") (fun history argv =>
    if str_eqb (word 0 argv) (lit "ifconfig")
    then Exited 0 (blit "en0: flags=8863 mtu 1500"
                   ++ blit "    ether 02:1a:3c:4d:5e:6f ") []
    else if str_eqb (word 1 argv) (lit "airport")
         then Exited 1 [] []
         else Exited 0 [] []).


Definition linux : MACChanger := {| self_system := lit "Linux" |}.
Definition darwin : MACChanger := {| self_system := lit "Darwin" |}.



Definition random_args : Args := {|
  args_interface := Some (lit "eth0");
  args_mac := None;
  args_random := true;
  args_list := false;
  args_show := false
|}.

End Behaviour.
Import Behaviour.

(* ================================================================== *)
(** ** Strings *)
(* ================================================================== *)

Section StringFacts.

Lemma str_eqb_eq (a b : str) : str_eqb a b = true <-> a = b.
Proof.
  revert b; induction a as [|x a IH]; intros [|y b]; simpl;
    try (split; discriminate); try tauto.
  rewrite andb_true_iff, N.eqb_eq, IH.
  split; [intros [-> ->]; reflexivity | intros E; inversion E; auto].
Qed.

Lemma str_eqb_refl (a : str) : str_eqb a a = true.
Proof. apply str_eqb_eq; reflexivity. Qed.

End StringFacts.

(* ================================================================== *)
(** ** The matcher on the address patterns *)
(* ================================================================== *)

Section Matching.

Lemma in_hex_class (c : char) :
  in_class [(48, 57); (65, 70); (97, 102)]%N c = true <-> hex_digit_char c.
Proof.
  unfold in_class, hex_digit_char; simpl.
  rewrite !orb_true_iff, !andb_true_iff, !N.leb_le.
  intuition (try discriminate; auto).
Qed.

Lemma in_sep_class (c : char) :
  in_class [(58, 58); (45, 45)]%N c = true <-> separator c.
Proof.
  unfold in_class, separator; simpl.
  rewrite !orb_true_iff, !andb_true_iff, !N.leb_le.
  split.
  - intros [[? ?]|[[? ?]|?]]; [left; lia | right; lia | discriminate].
  - intros [->| ->]; [left | right; left]; split; reflexivity.
Qed.

Local Arguments in_class : simpl never.

(** *** The equations of the matcher *)

Lemma match_at_Class (ranges : list (char * char)) (pos : nat) (s : str) :
  match_at (Class ranges) pos s =
  match s with
  | c :: s' => if in_class ranges c then Some ([c], s') else None
  | [] => None
  end.
Proof. reflexivity. Qed.

Lemma match_at_Cat (r1 r2 : regex) (pos : nat) (s : str) :
  match_at (Cat r1 r2) pos s =
  match match_at r1 pos s with
  | Some (a, s1) =>
      match match_at r2 (pos + length a) s1 with
      | Some (b, s2) => Some (a ++ b, s2)
      | None => None
      end
  | None => None
  end.
Proof. reflexivity. Qed.

Lemma match_at_Rep_0 (r : regex) (pos : nat) (s : str) :
  match_at (Rep r 0) pos s = Some ([], s).
Proof. reflexivity. Qed.

Lemma match_at_Rep_S (r : regex) (n pos : nat) (s : str) :
  match_at (Rep r (S n)) pos s =
  match match_at r pos s with
  | Some (a, s1) =>
      match match_at (Rep r n) (pos + length a) s1 with
      | Some (b, s2) => Some (a ++ b, s2)
      | None => None
      end
  | None => None
  end.
Proof. reflexivity. Qed.

Lemma match_at_Group (r : regex) (pos : nat) (s : str) :
  match_at (Group r) pos s = match_at r pos s.
Proof. reflexivity. Qed.

(** What is consumed is a prefix of the subject. *)
Lemma match_at_prefix (r : regex) :
  forall pos s a rest, match_at r pos s = Some (a, rest) -> s = a ++ rest.
Proof.
  induction r as [| |ranges|r1 IH1 r2 IH2|r IH n|r IH]; intros pos s a rest.
  - simpl. destruct (Nat.eqb pos 0); [|discriminate].
    intros E; injection E as <- <-; reflexivity.
  - simpl. destruct s as [|c [|d s]]; try discriminate.
    + intros E; injection E as <- <-; reflexivity.
    + destruct (N.eqb c newline); [|discriminate].
      intros E; injection E as <- <-; reflexivity.
  - rewrite match_at_Class. destruct s as [|c s]; [discriminate|].
    destruct (in_class ranges c); [|discriminate].
    intros E; injection E as <- <-; reflexivity.
  - rewrite match_at_Cat.
    destruct (match_at r1 pos s) as [[a1 s1]|] eqn:E1; [|discriminate].
    destruct (match_at r2 (pos + length a1) s1) as [[a2 s2]|] eqn:E2;
      [|discriminate].
    intros E; injection E as <- <-.
    apply IH1 in E1. apply IH2 in E2. subst. apply app_assoc.
  - revert pos s a rest. induction n as [|n IHn]; intros pos s a rest.
    + rewrite match_at_Rep_0. intros E; injection E as <- <-; reflexivity.
    + rewrite match_at_Rep_S.
      destruct (match_at r pos s) as [[a1 s1]|] eqn:E1; [|discriminate].
      destruct (match_at (Rep r n) (pos + length a1) s1) as [[a2 s2]|] eqn:E2;
        [|discriminate].
      intros E; injection E as <- <-.
      apply IH in E1. apply IHn in E2. subst. apply app_assoc.
  - rewrite match_at_Group. apply IH.
Qed.

(** *** The address patterns *)

Lemma hex_group_inv (a : str) :
  hex_group a <->
  exists x y, a = [x; y] /\ hex_digit_char x /\ hex_digit_char y.
Proof.
  unfold hex_group. split.
  - intros [Hl F]. destruct a as [|x [|y [|z a]]]; try discriminate.
    inversion F as [|? ? Hx F']; subst. inversion F' as [|? ? Hy _]; subst.
    exists x, y; auto.
  - intros (x & y & -> & Hx & Hy). split; [reflexivity|].
    apply Forall_cons; [assumption|].
    apply Forall_cons; [assumption | apply Forall_nil].
Qed.

(** [[0-9A-Fa-f]{2}] consumes exactly a group of two digits. *)
Lemma match_hex_pair (pos : nat) (s a rest : str) :
  match_at (Rep hex_class 2) pos s = Some (a, rest)
  <-> hex_group a /\ s = a ++ rest.
Proof.
  rewrite hex_group_inv. unfold hex_class.
  rewrite !match_at_Rep_S, match_at_Class.
  split.
  - destruct s as [|x s]; [discriminate|].
    destruct (in_class _ x) eqn:Hx; [|discriminate].
    rewrite match_at_Rep_S, match_at_Class.
    destruct s as [|y s]; [discriminate|].
    destruct (in_class _ y) eqn:Hy; [|discriminate].
    rewrite match_at_Rep_0.
    intros E; injection E as <- <-.
    apply in_hex_class in Hx, Hy.
    split; [exists x, y; auto | reflexivity].
  - intros [(x & y & -> & Hx & Hy) ->]. cbn [app].
    apply in_hex_class in Hx, Hy.
    rewrite Hx, match_at_Rep_S, match_at_Class, Hy, match_at_Rep_0.
    reflexivity.
Qed.

(** [([0-9A-Fa-f]{2}[:-])] consumes a group and the separator behind
    it. *)
Lemma match_group_sep (pos : nat) (s a rest : str) :
  match_at (Group (Cat (Rep hex_class 2) sep_class)) pos s = Some (a, rest)
  <-> exists g c,
        hex_group g /\ separator c /\ a = g ++ [c] /\ s = a ++ rest.
Proof.
  rewrite match_at_Group, match_at_Cat.
  split.
  - destruct (match_at (Rep hex_class 2) pos s) as [[g s1]|] eqn:Hg;
      [|discriminate].
    apply match_hex_pair in Hg. destruct Hg as [Hg ->].
    unfold sep_class; rewrite match_at_Class.
    destruct s1 as [|c s1]; [discriminate|].
    destruct (in_class _ c) eqn:Hc; [|discriminate].
    intros E; injection E as <- <-.
    apply in_sep_class in Hc.
    exists g, c. rewrite <- app_assoc. auto.
  - intros (g & c & Hg & Hc & -> & ->).
    assert (E : match_at (Rep hex_class 2) pos ((g ++ [c]) ++ rest)
                = Some (g, c :: rest)).
    { apply match_hex_pair. split; [assumption|].
      rewrite <- app_assoc. reflexivity. }
    rewrite E. unfold sep_class; rewrite match_at_Class.
    apply in_sep_class in Hc. rewrite Hc. reflexivity.
Qed.

(** [([0-9A-Fa-f]{2}[:-]){n}([0-9A-Fa-f]{2})] consumes exactly [n + 1]
    separated groups. *)
Lemma match_separated_groups (n pos : nat) (s a rest : str) :
  match_at (Cat (Rep (Group (Cat (Rep hex_class 2) sep_class)) n)
                (Group (Rep hex_class 2))) pos s = Some (a, rest)
  <-> separated_groups n a /\ s = a ++ rest.
Proof.
  set (G := Group (Cat (Rep hex_class 2) sep_class)).
  set (P := Group (Rep hex_class 2)).
  revert pos s a rest. induction n as [|n IH]; intros pos s a rest.
  - rewrite match_at_Cat, match_at_Rep_0. unfold P.
    rewrite match_at_Group. unfold separated_groups. split.
    + destruct (match_at (Rep hex_class 2) _ s) as [[b s2]|] eqn:Hb;
        [|discriminate].
      intros E; cbn [app] in E; injection E as <- <-.
      apply match_hex_pair in Hb. destruct Hb as [Hb ->].
      split; [|reflexivity]. exists b, []. simpl; auto.
    + intros [(g & more & Hl & Hg & _ & ->) ->].
      destruct more; [|discriminate]. cbn [joined].
      assert (E : match_at (Rep hex_class 2) (pos + length (@nil char))
                    (g ++ rest) = Some (g, rest))
        by (apply match_hex_pair; auto).
      rewrite E. reflexivity.
  - assert (Unfold :
      match_at (Cat (Rep G (S n)) P) pos s =
      match match_at G pos s with
      | Some (a1, s1) =>
          match match_at (Cat (Rep G n) P) (pos + length a1) s1 with
          | Some (b, s2) => Some (a1 ++ b, s2)
          | None => None
          end
      | None => None
      end).
    { rewrite match_at_Cat, match_at_Rep_S.
      destruct (match_at G pos s) as [[a1 s1]|]; [|reflexivity].
      rewrite match_at_Cat.
      destruct (match_at (Rep G n) (pos + length a1) s1) as [[b s2]|];
        [|reflexivity].
      rewrite length_app, Nat.add_assoc.
      destruct (match_at P (pos + length a1 + length b) s2) as [[c s3]|];
        [|reflexivity].
      rewrite app_assoc. reflexivity. }
    rewrite Unfold; clear Unfold. split.
    + destruct (match_at G pos s) as [[a1 s1]|] eqn:H1; [|discriminate].
      destruct (match_at (Cat (Rep G n) P) (pos + length a1) s1)
        as [[b s2]|] eqn:H2; [|discriminate].
      intros E; injection E as <- <-.
      apply match_group_sep in H1.
      destruct H1 as (g & c & Hg & Hc & -> & ->).
      apply IH in H2. destruct H2 as [(g' & more & Hl & Hg' & F & ->) ->].
      split; [|rewrite <- !app_assoc; reflexivity].
      exists g, ((c, g') :: more). cbn [joined length].
      split; [congruence|]. split; [assumption|].
      split; [apply Forall_cons; [split|]; assumption|].
      rewrite <- app_assoc. reflexivity.
    + intros [(g & more & Hl & Hg & F & ->) ->].
      destruct more as [|[c g'] more]; [discriminate|].
      inversion F as [|? ? [Hc Hg'] F']; subst. cbn [fst snd] in Hc, Hg'.
      injection Hl as Hl.
      assert (E1 : match_at G pos (joined g ((c, g') :: more) ++ rest)
                   = Some (g ++ [c], joined g' more ++ rest)).
      { apply match_group_sep. exists g, c. cbn [joined].
        rewrite <- !app_assoc. auto. }
      rewrite E1.
      assert (E2 : match_at (Cat (Rep G n) P) (pos + length (g ++ [c]))
                     (joined g' more ++ rest)
                   = Some (joined g' more, rest)).
      { apply IH. split; [|reflexivity]. exists g', more.
        split; [assumption|]. split; [assumption|].
        split; [assumption | reflexivity]. }
      rewrite E2. cbn [joined]. rewrite <- app_assoc. reflexivity.
Qed.

(** The pattern of [get_current_mac] at one position. *)
Lemma match_mac_pattern (pos : nat) (s a rest : str) :
  match_at mac_pattern pos s = Some (a, rest)
  <-> six_hex_groups a /\ s = a ++ rest.
Proof. apply match_separated_groups. Qed.

(** A concrete group is checked by running the matcher on it. *)
Lemma hex_group_check (g : str) :
  match_at (Rep hex_class 2) 0 g = Some (g, []) -> hex_group g.
Proof. intros E. apply match_hex_pair in E. tauto. Qed.

(** A concrete text is checked by running the matcher on it. *)
Lemma six_hex_groups_check (t : str) :
  match_at mac_pattern 0 t = Some (t, []) -> six_hex_groups t.
Proof. intros E. apply match_mac_pattern in E. tauto. Qed.

End Matching.

(* ================================================================== *)
(** ** Validation *)
(* ================================================================== *)

Section Validation.

Local Open Scope string_scope.
Local Open Scope list_scope.

Lemma separated_groups_length (n : nat) (t : str) :
  separated_groups n t -> length t = 3 * n + 2.
Proof.
  intros (g & more & Hl & Hg & F & ->). subst n.
  revert g Hg. induction F as [|[c g'] more [_ Hg'] F IH]; intros g Hg.
  - destruct Hg as [Hg _]. simpl. assumption.
  - cbn [joined length]. rewrite length_app. cbn [length].
    rewrite (IH g' Hg'). destruct Hg as [-> _]. lia.
Qed.

Lemma six_hex_groups_length (t : str) :
  six_hex_groups t -> length t = 17.
Proof. apply separated_groups_length. Qed.

(** [validate_mac] in terms of the pattern of the scan: the address
    pattern at index 0, then the end of the text or its final newline. *)
Lemma validate_mac_unfold (t : str) :
  validate_mac t =
  match match_at mac_pattern 0 t with
  | Some (_, []) => true
  | Some (_, [c]) => N.eqb c newline
  | _ => false
  end.
Proof.
  unfold validate_mac, re_match, validate_pattern.
  rewrite match_at_Cat.
  change (match_at Bol 0 t) with (Some (@nil char, t)). cbv beta iota.
  rewrite match_at_Cat. change (0 + length (@nil char)) with 0.
  destruct (match_at mac_pattern 0 t) as [[m tail]|]; [|reflexivity].
  destruct tail as [|c [|d tail]]; try reflexivity.
  cbn [match_at]. destruct (N.eqb c newline); reflexivity.
Qed.

(** An address followed by [tail] validates exactly when [tail] is
    empty or a single newline. *)
Lemma validate_mac_tail (m tail : str) :
  six_hex_groups m ->
  validate_mac (m ++ tail) = true <-> tail = [] \/ tail = [newline].
Proof.
  intros Hm. rewrite validate_mac_unfold.
  assert (E : match_at mac_pattern 0 (m ++ tail) = Some (m, tail))
    by (apply match_mac_pattern; auto).
  rewrite E.
  destruct tail as [|c [|d tail]].
  - split; auto.
  - destruct (N.eqb_spec c newline) as [->|Hc].
    + split; auto.
    + split; [discriminate|]. intros [E'|E']; [discriminate|].
      injection E' as E'. contradiction.
  - split; [discriminate|]. intros [E'|E']; discriminate.
Qed.

(** What [validate_mac] accepts. *)
Lemma validate_mac_accepts (t : str) :
  validate_mac t = true
  <-> exists m, six_hex_groups m /\ (t = m \/ t = m ++ [newline]).
Proof.
  split.
  - rewrite validate_mac_unfold.
    destruct (match_at mac_pattern 0 t) as [[m tail]|] eqn:E;
      [|discriminate].
    apply match_mac_pattern in E. destruct E as [Hm ->].
    intros Hv. exists m. split; [assumption|].
    destruct tail as [|c [|d tail]]; [| |discriminate].
    + left; apply app_nil_r.
    + apply N.eqb_eq in Hv. subst c. right; reflexivity.
  - intros (m & Hm & [->| ->]).
    + rewrite <- (app_nil_r m). apply validate_mac_tail; auto.
    + apply validate_mac_tail; auto.
Qed.

Lemma validate_mac_six (t : str) :
  six_hex_groups t -> validate_mac t = true.
Proof. intros Ht. apply validate_mac_accepts. exists t; auto. Qed.

(** [six_hex_groups] is decided by the pattern of the scan. *)
Lemma six_hex_groups_dec (t : str) :
  {six_hex_groups t} + {~ six_hex_groups t}.
Proof.
  destruct (match_at mac_pattern 0 t) as [[a [|c rest]]|] eqn:E.
  - left. apply match_mac_pattern in E. destruct E as [Ha ->].
    rewrite app_nil_r. assumption.
  - right. intros Ht. apply match_mac_pattern in E. destruct E as [Ha ->].
    apply six_hex_groups_length in Ht, Ha.
    rewrite length_app in Ht. cbn [length] in Ht. lia.
  - right. intros Ht.
    assert (E' : match_at mac_pattern 0 (t ++ []) = Some (t, []))
      by (apply match_mac_pattern; auto).
    rewrite app_nil_r in E'. congruence.
Qed.

(** *** Case of the hexadecimal letters *)

Lemma flip_hex_case_involutive (c : char) :
  flip_hex_case (flip_hex_case c) = c.
Proof.
  unfold flip_hex_case.
  destruct ((97 <=? c) && (c <=? 102))%N eqn:E1.
  - apply andb_true_iff in E1. destruct E1 as [A B].
    apply N.leb_le in A, B.
    destruct ((97 <=? c - 32) && (c - 32 <=? 102))%N eqn:E2.
    + apply andb_true_iff in E2. destruct E2 as [A' B'].
      apply N.leb_le in A', B'. lia.
    + destruct ((65 <=? c - 32) && (c - 32 <=? 70))%N eqn:E3; [lia|].
      apply andb_false_iff in E3.
      destruct E3 as [E3|E3]; apply N.leb_gt in E3; lia.
  - destruct ((65 <=? c) && (c <=? 70))%N eqn:E2.
    + apply andb_true_iff in E2. destruct E2 as [A B].
      apply N.leb_le in A, B.
      destruct ((97 <=? c + 32) && (c + 32 <=? 102))%N eqn:E3; [lia|].
      apply andb_false_iff in E3.
      destruct E3 as [E3|E3]; apply N.leb_gt in E3; lia.
    + rewrite E1, E2. reflexivity.
Qed.

Lemma flip_hex_case_digit (c : char) :
  hex_digit_char c -> hex_digit_char (flip_hex_case c).
Proof.
  unfold hex_digit_char, flip_hex_case. intros Hc.
  destruct ((97 <=? c) && (c <=? 102))%N eqn:E1.
  - apply andb_true_iff in E1. destruct E1 as [A B].
    apply N.leb_le in A, B. lia.
  - destruct ((65 <=? c) && (c <=? 70))%N eqn:E2.
    + apply andb_true_iff in E2. destruct E2 as [A B].
      apply N.leb_le in A, B. lia.
    + assumption.
Qed.

Lemma flip_hex_case_separator (c : char) :
  separator c -> flip_hex_case c = c.
Proof. intros [->| ->]; reflexivity. Qed.

Lemma flip_hex_case_group (g : str) :
  hex_group g -> hex_group (map flip_hex_case g).
Proof.
  intros [Hl F]. split; [rewrite length_map; assumption|].
  apply Forall_map. eapply Forall_impl; [|exact F].
  apply flip_hex_case_digit.
Qed.

Lemma flip_hex_case_joined (g : str) (more : list (char * str)) :
  map flip_hex_case (joined g more)
  = joined (map flip_hex_case g)
           (map (fun p => (flip_hex_case (fst p), map flip_hex_case (snd p)))
                more).
Proof.
  revert g. induction more as [|[c g'] more IH]; intros g; [reflexivity|].
  cbn [joined map fst snd]. rewrite map_app. cbn [map].
  rewrite IH. reflexivity.
Qed.

Lemma flip_hex_case_six (t : str) :
  six_hex_groups t -> six_hex_groups (map flip_hex_case t).
Proof.
  intros (g & more & Hl & Hg & F & ->).
  exists (map flip_hex_case g),
    (map (fun p => (flip_hex_case (fst p), map flip_hex_case (snd p))) more).
  split; [rewrite length_map; assumption|].
  split; [apply flip_hex_case_group; assumption|].
  split; [|apply flip_hex_case_joined].
  apply Forall_map. eapply Forall_impl; [|exact F].
  intros [c g'] [Hc Hg']. cbn [fst snd] in *. split.
  - rewrite flip_hex_case_separator; assumption.
  - apply flip_hex_case_group; assumption.
Qed.

Lemma flip_hex_case_accepts (t : str) :
  validate_mac t = true -> validate_mac (map flip_hex_case t) = true.
Proof.
  intros Hv. apply validate_mac_accepts in Hv.
  destruct Hv as (m & Hm & Ht).
  apply validate_mac_accepts. exists (map flip_hex_case m).
  split; [apply flip_hex_case_six; assumption|].
  destruct Ht as [->| ->]; [left; reflexivity|].
  right. rewrite map_app. reflexivity.
Qed.

Lemma map_flip_hex_case_involutive (t : str) :
  map flip_hex_case (map flip_hex_case t) = t.
Proof.
  rewrite map_map. rewrite <- (map_id t) at 2.
  apply map_ext. apply flip_hex_case_involutive.
Qed.

(** *** The claims on [validate_mac] *)

(** C1 (the code departs from the claim): [validate_mac] accepts the
    text ["aa:bb:cc:dd:ee:ff\n"], which is not six 2-digit hexadecimal
    groups separated by [:] or [-]: a newline follows the last group. *)
Theorem validate_mac_accepts_trailing_newline :
  validate_mac (lit "aa:bb:cc:dd:ee:ff" ++ [newline]) = true
  /\ ~ six_hex_groups (lit "aa:bb:cc:dd:ee:ff" ++ [newline]).
Proof.
  split; [reflexivity|].
  intros Hs. apply six_hex_groups_length in Hs. discriminate.
Qed.

(** C5 (the code departs from the claim): on ["aa:bb:cc:dd:ee:ff\n"]
    the last group has three characters, one of them not a hexadecimal
    digit, and [validate_mac] still answers [true]. *)
Theorem validate_mac_true_on_malformed_group :
  let t := lit "aa:bb:cc:dd:ee:ff" ++ [newline] in
  validate_mac t = true
  /\ map (@length char) (split_groups t) = [2; 2; 2; 2; 2; 3]
  /\ In newline t /\ ~ hex_digit_char newline /\ ~ separator newline.
Proof.
  cbv zeta. split; [reflexivity|]. split; [reflexivity|].
  split; [|split].
  - apply in_or_app. right. left. reflexivity.
  - unfold hex_digit_char, newline. lia.
  - unfold separator, newline. lia.
Qed.

(** C6: [validate_mac] does not depend on the case of the hexadecimal
    letters: flipping the case of every hexadecimal letter of a text
    leaves the answer unchanged, and both ["AA:BB:CC:DD:EE:FF"] and
    ["aa:bb:cc:dd:ee:ff"] are accepted. *)
Theorem validate_mac_case_insensitive :
  (forall t : str, validate_mac (map flip_hex_case t) = validate_mac t)
  /\ validate_mac (lit "AA:BB:CC:DD:EE:FF") = true
  /\ validate_mac (lit "aa:bb:cc:dd:ee:ff") = true
  /\ map flip_hex_case (lit "aa:bb:cc:dd:ee:ff") = lit "AA:BB:CC:DD:EE:FF".
Proof.
  split; [|repeat split; reflexivity].
  intros t.
  destruct (validate_mac t) eqn:Ht.
  - apply flip_hex_case_accepts; assumption.
  - destruct (validate_mac (map flip_hex_case t)) eqn:Hf; [|reflexivity].
    apply flip_hex_case_accepts in Hf.
    rewrite map_flip_hex_case_involutive in Hf. congruence.
Qed.

(** C9: the five separators are chosen independently: every text of
    six 2-digit hexadecimal groups is accepted whichever of [:] and [-]
    stands between two neighbours, and ["aa:bb-cc:dd:ee:ff"], which has
    both, is accepted. *)
Theorem validate_mac_mixed_separators :
  (forall g0 g1 g2 g3 g4 g5 s1 s2 s3 s4 s5,
      Forall hex_group [g0; g1; g2; g3; g4; g5] ->
      Forall separator [s1; s2; s3; s4; s5] ->
      validate_mac (g0 ++ s1 :: g1 ++ s2 :: g2 ++ s3 :: g3 ++ s4 :: g4
                       ++ s5 :: g5) = true)
  /\ validate_mac (lit "aa:bb-cc:dd:ee:ff") = true
  /\ In 58%N (lit "aa:bb-cc:dd:ee:ff")
  /\ In 45%N (lit "aa:bb-cc:dd:ee:ff").
Proof.
  split.
  - intros g0 g1 g2 g3 g4 g5 s1 s2 s3 s4 s5 Hg Hs.
    apply validate_mac_six.
    exists g0, [(s1, g1); (s2, g2); (s3, g3); (s4, g4); (s5, g5)].
    repeat match goal with
           | H : Forall _ (_ :: _) |- _ =>
               let a := fresh "A" in
               let b := fresh "B" in
               apply Forall_cons_iff in H; destruct H as [a b]
           end.
    split; [reflexivity|]. split; [assumption|].
    split; [|reflexivity].
    repeat (apply Forall_cons; [split; assumption|]). apply Forall_nil.
  - split; [reflexivity|]. split.
    + cbv. tauto.
    + cbv. tauto.
Qed.

(** C10: an address followed by exactly one newline is accepted, as
    ["aa:bb:cc:dd:ee:ff\n"] is; followed by one other character, or by
    more than one character, it is rejected. *)
Theorem validate_mac_trailing_newline :
  forall m : str,
    six_hex_groups m ->
    validate_mac (m ++ [newline]) = true
    /\ (forall c, c <> newline -> validate_mac (m ++ [c]) = false)
    /\ (forall tail, 2 <= length tail -> validate_mac (m ++ tail) = false).
Proof.
  intros m Hm. split; [|split].
  - apply validate_mac_tail; auto.
  - intros c Hc. destruct (validate_mac (m ++ [c])) eqn:E; [|reflexivity].
    apply validate_mac_tail in E; [|assumption].
    destruct E as [E|E]; [discriminate | congruence].
  - intros tail Hl.
    destruct (validate_mac (m ++ tail)) eqn:E; [|reflexivity].
    apply validate_mac_tail in E; [|assumption].
    destruct E as [->| ->]; cbn [length] in Hl; lia.
Qed.

(** The instance of C10 on ["aa:bb:cc:dd:ee:ff"]: accepted with one
    newline behind it, rejected with a space or with two newlines. *)
Lemma validate_mac_trailing_newline_witness :
  six_hex_groups (lit "aa:bb:cc:dd:ee:ff")
  /\ validate_mac (lit "aa:bb:cc:dd:ee:ff" ++ [newline]) = true
  /\ validate_mac (lit "aa:bb:cc:dd:ee:ff" ++ lit " ") = false
  /\ validate_mac (lit "aa:bb:cc:dd:ee:ff" ++ [newline; newline]) = false.
Proof.
  assert (Hm : six_hex_groups (lit "aa:bb:cc:dd:ee:ff"))
    by (apply six_hex_groups_check; reflexivity).
  destruct (validate_mac_trailing_newline Hm) as (A & B & C).
  split; [exact Hm|]. split; [exact A|]. split.
  - apply B. discriminate.
  - apply C. cbn [length]. lia.
Defined.

End Validation.

(* ================================================================== *)
(** ** The scan of [get_current_mac] *)
(* ================================================================== *)

Section Scan.

Local Open Scope string_scope.
Local Open Scope list_scope.

Lemma occurs_at_0 (sub raw : str) :
  occurs_at sub raw 0 <-> exists post, raw = sub ++ post.
Proof.
  split.
  - intros (pre & post & Hl & ->). destruct pre; [|discriminate].
    exists post; reflexivity.
  - intros (post & ->). exists [], post. split; reflexivity.
Qed.

Lemma occurs_at_S (sub : str) (c : char) (raw : str) (i : nat) :
  occurs_at sub (c :: raw) (S i) <-> occurs_at sub raw i.
Proof.
  split.
  - intros (pre & post & Hl & E). destruct pre as [|d pre]; [discriminate|].
    injection Hl as Hl. injection E as _ E.
    exists pre, post. split; assumption.
  - intros (pre & post & Hl & ->). exists (c :: pre), post.
    split; [cbn [length]; congruence | reflexivity].
Qed.

Lemma no_match_no_occurrence (pos : nat) (raw sub : str) :
  match_at mac_pattern pos raw = None ->
  six_hex_groups sub -> ~ occurs_at sub raw 0.
Proof.
  intros E Hs Ho. apply occurs_at_0 in Ho. destruct Ho as (post & ->).
  assert (E' : match_at mac_pattern pos (sub ++ post) = Some (sub, post))
    by (apply match_mac_pattern; auto).
  congruence.
Qed.

(** The scan returns the leftmost occurrence, and nothing when there is
    none. *)
Lemma search_from_leftmost (raw : str) :
  forall pos,
    match search_from mac_pattern pos raw with
    | Some sub => leftmost_mac raw sub
    | None => ~ has_mac_substring raw
    end.
Proof.
  induction raw as [|c raw IH]; intros pos.
  - cbn [search_from].
    destruct (match_at mac_pattern pos []) as [[a rest]|] eqn:E.
    + apply match_mac_pattern in E. destruct E as [Ha E].
      apply six_hex_groups_length in Ha.
      destruct a; [discriminate Ha | discriminate E].
    + intros (sub & i & Hs & pre & post & _ & E').
      apply six_hex_groups_length in Hs.
      destruct pre; [|discriminate E'].
      destruct sub; [discriminate Hs | discriminate E'].
  - cbn [search_from].
    destruct (match_at mac_pattern pos (c :: raw)) as [[a rest]|] eqn:E.
    + apply match_mac_pattern in E. destruct E as [Ha E].
      exists 0. split; [assumption|]. split; [|intros; lia].
      apply occurs_at_0. exists rest; assumption.
    + specialize (IH (S pos)).
      destruct (search_from mac_pattern (S pos) raw) as [sub|].
      * destruct IH as (i & Hs & Ho & Hmin).
        exists (S i). split; [assumption|].
        split; [apply occurs_at_S; assumption|].
        intros sub' [|j] Hs' Ho'.
        -- exfalso. eapply no_match_no_occurrence; eassumption.
        -- apply occurs_at_S in Ho'. specialize (Hmin sub' j Hs' Ho'). lia.
      * intros (sub & [|j] & Hs & Ho).
        -- eapply no_match_no_occurrence; eassumption.
        -- apply occurs_at_S in Ho. apply IH. exists sub, j; auto.
Qed.

(** C3: the scan of [get_current_mac] finds nothing in a text without
    a six-group substring; in a text with one it returns the leftmost
    such substring; and on
    ["link/ether 02:1a:3c:4d:5e:6f brd ff:ff:ff:ff:ff:ff"] it returns
    ["02:1a:3c:4d:5e:6f"]. *)
Theorem search_mac_first_match :
  (forall raw, ~ has_mac_substring raw -> search_mac raw = None)
  /\ (forall raw,
         has_mac_substring raw ->
         exists sub, search_mac raw = Some sub /\ leftmost_mac raw sub)
  /\ search_mac (lit "link/ether 02:1a:3c:4d:5e:6f brd ff:ff:ff:ff:ff:ff")
     = Some (lit "02:1a:3c:4d:5e:6f").
Proof.
  split; [|split].
  - intros raw Hn. unfold search_mac, re_search.
    pose proof (search_from_leftmost raw 0) as Hs.
    destruct (search_from mac_pattern 0 raw) as [sub|]; [|reflexivity].
    exfalso. apply Hn. destruct Hs as (i & Hs & Ho & _).
    exists sub, i; auto.
  - intros raw Hh. unfold search_mac, re_search.
    pose proof (search_from_leftmost raw 0) as Hs.
    destruct (search_from mac_pattern 0 raw) as [sub|].
    + exists sub; auto.
    + contradiction.
  - reflexivity.
Qed.

(** The instance of C3 on the device listing of the specification: the
    listing has a six-group substring, the scan returns the first one
    and not the broadcast address behind it. *)
Lemma search_mac_first_match_witness :
  has_mac_substring
    (lit "link/ether 02:1a:3c:4d:5e:6f brd ff:ff:ff:ff:ff:ff")
  /\ (exists sub,
         search_mac (lit "link/ether 02:1a:3c:4d:5e:6f brd ff:ff:ff:ff:ff:ff")
         = Some sub
         /\ leftmost_mac
              (lit "link/ether 02:1a:3c:4d:5e:6f brd ff:ff:ff:ff:ff:ff") sub)
  /\ ~ has_mac_substring (lit "link/ether")
  /\ search_mac (lit "link/ether") = None.
Proof.
  assert (Hh : has_mac_substring
            (lit "link/ether 02:1a:3c:4d:5e:6f brd ff:ff:ff:ff:ff:ff")).
  { exists (lit "ff:ff:ff:ff:ff:ff"), 33.
    split; [apply six_hex_groups_check; reflexivity|].
    exists (lit "link/ether 02:1a:3c:4d:5e:6f brd "), [].
    split; reflexivity. }
  assert (Hn : ~ has_mac_substring (lit "link/ether")).
  { intros (sub & i & Hs & pre & post & _ & E).
    apply six_hex_groups_length in Hs.
    apply (f_equal (@length char)) in E.
    rewrite !length_app, Hs in E. cbn in E. lia. }
  split; [exact Hh|]. split; [|split; [exact Hn|]].
  - exact (proj1 (proj2 search_mac_first_match) _ Hh).
  - exact (proj1 search_mac_first_match _ Hn).
Defined.

End Scan.

(* ================================================================== *)
(** ** Generation *)
(* ================================================================== *)

Section Generation.

Local Open Scope Z_scope.

Lemma hex_digit_lower (d : Z) :
  0 <= d < 16 -> lower_hex_digit_char (hex_digit d).
Proof.
  intros Hd. unfold lower_hex_digit_char, hex_digit.
  destruct (Z.ltb_spec d 10); lia.
Qed.

Lemma hex_value_hex_digit (d : Z) :
  0 <= d < 16 -> hex_value (hex_digit d) = Some d.
Proof.
  intros Hd.
  assert (C : d = 0 \/ d = 1 \/ d = 2 \/ d = 3 \/ d = 4 \/ d = 5 \/ d = 6
              \/ d = 7 \/ d = 8 \/ d = 9 \/ d = 10 \/ d = 11 \/ d = 12
              \/ d = 13 \/ d = 14 \/ d = 15) by lia.
  repeat (destruct C as [->|C]; [reflexivity|]). subst d. reflexivity.
Qed.

(** An octet is written with exactly two digits. *)
Lemma format_02x_octet (n : Z) :
  0 <= n < 256 ->
  format_02x n = [hex_digit (n / 16); hex_digit (n mod 16)].
Proof.
  intros Hn. unfold format_02x.
  destruct (Z.ltb_spec n 0) as [|_]; [lia|].
  unfold to_hex. cbn [hex_digits].
  destruct (Z.ltb_spec n 16) as [Hs|Hb].
  - rewrite Z.div_small, Z.mod_small by lia. reflexivity.
  - assert (Hl : 4 <= Z.log2 n).
    { change 4 with (Z.log2 16). apply Z.log2_le_mono. assumption. }
    destruct (Z.to_nat (Z.log2 n)) as [|k] eqn:Ek; [lia|].
    cbn [hex_digits].
    assert (Hq : n / 16 < 16)
      by (apply Z.div_lt_upper_bound; lia).
    destruct (Z.ltb_spec (n / 16) 16) as [_|]; [|lia].
    reflexivity.
Qed.

Lemma format_02x_lower (n : Z) :
  0 <= n < 256 -> lower_hex_group (format_02x n).
Proof.
  intros Hn. rewrite format_02x_octet by assumption.
  split; [reflexivity|].
  assert (0 <= n / 16 < 16)
    by (split; [apply Z.div_pos; lia | apply Z.div_lt_upper_bound; lia]).
  assert (0 <= n mod 16 < 16) by (apply Z.mod_pos_bound; lia).
  apply Forall_cons; [apply hex_digit_lower; assumption|].
  apply Forall_cons; [apply hex_digit_lower; assumption | apply Forall_nil].
Qed.

(** Reading the two digits back gives the octet. *)
Lemma int16_format_02x (n : Z) :
  0 <= n < 256 -> int16 (format_02x n) = Some n.
Proof.
  intros Hn. rewrite format_02x_octet by assumption.
  assert (0 <= n / 16 < 16)
    by (split; [apply Z.div_pos; lia | apply Z.div_lt_upper_bound; lia]).
  assert (0 <= n mod 16 < 16) by (apply Z.mod_pos_bound; lia).
  unfold int16. cbn [int16_from].
  rewrite !hex_value_hex_digit by assumption.
  f_equal. rewrite (Z.div_mod n 16) at 3 by lia. lia.
Qed.

Lemma lower_hex_group_hex_group (g : str) :
  lower_hex_group g -> hex_group g.
Proof.
  intros [Hl F]. split; [assumption|].
  eapply Forall_impl; [|exact F].
  unfold lower_hex_digit_char, hex_digit_char. intros c Hc. tauto.
Qed.

(** The first octet after [(m & 0xfe) | 0x02]. *)
Lemma local_unicast_octet (m : Z) :
  0 <= m < 256 ->
  let o := Z.lor (Z.land m 0xfe) 0x02 in
  0 <= o < 256 /\ Z.testbit o 0 = false /\ Z.testbit o 1 = true.
Proof.
  intros Hm o.
  assert (B0 : Z.testbit o 0 = false).
  { unfold o. rewrite Z.lor_spec, Z.land_spec.
    change (Z.testbit 254 0) with false. change (Z.testbit 2 0) with false.
    rewrite andb_false_r. reflexivity. }
  assert (B1 : Z.testbit o 1 = true).
  { unfold o. rewrite Z.lor_spec.
    change (Z.testbit 2 1) with true. apply orb_true_r. }
  assert (Hland : 0 <= Z.land m 254) by (apply Z.land_nonneg; lia).
  assert (Hnn : 0 <= o) by (unfold o; apply Z.lor_nonneg; lia).
  assert (Hpos : 0 < o).
  { destruct (Z.eq_dec o 0) as [E|]; [|lia].
    rewrite E in B1. discriminate. }
  split; [|split; assumption]. split; [assumption|].
  change 256 with (2 ^ 8). apply Z.log2_lt_pow2; [assumption|].
  unfold o. rewrite Z.log2_lor by lia.
  pose proof (Z.log2_land m 254 ltac:(lia) ltac:(lia)) as Hl.
  change (Z.log2 254) with 7 in Hl. change (Z.log2 2) with 1. lia.
Qed.

(** The text written for six octets, the first one made local and
    unicast. *)
Lemma format_mac_local_unicast (m0 m1 m2 m3 m4 m5 : Z) :
  Forall (fun m => 0 <= m < 256) [m0; m1; m2; m3; m4; m5] ->
  let a := format_mac (set_local_unicast [m0; m1; m2; m3; m4; m5]) in
  validate_mac a = true
  /\ (exists o, int16 (hd [] (split_groups a)) = Some o
                /\ Z.testbit o 0 = false /\ Z.testbit o 1 = true)
  /\ (exists g0 g1 g2 g3 g4 g5,
         a = join [58%N] [g0; g1; g2; g3; g4; g5]
         /\ Forall lower_hex_group [g0; g1; g2; g3; g4; g5]).
Proof.
  intros F a.
  repeat match goal with
         | H : Forall _ (_ :: _) |- _ =>
             let A := fresh "R" in
             let B := fresh "F" in
             apply Forall_cons_iff in H; destruct H as [A B]
         end.
  destruct (local_unicast_octet R) as (Ro & B0 & B1).
  set (o := Z.lor (Z.land m0 254) 2) in *.
  assert (Ea : a = join [58%N] [format_02x o; format_02x m1; format_02x m2;
                                format_02x m3; format_02x m4; format_02x m5])
    by reflexivity.
  pose proof (format_02x_lower Ro) as L0.
  pose proof (format_02x_lower R0) as L1.
  pose proof (format_02x_lower R1) as L2.
  pose proof (format_02x_lower R2) as L3.
  pose proof (format_02x_lower R3) as L4.
  pose proof (format_02x_lower R4) as L5.
  split; [|split].
  - rewrite Ea. apply validate_mac_six.
    exists (format_02x o),
      [(58%N, format_02x m1); (58%N, format_02x m2); (58%N, format_02x m3);
       (58%N, format_02x m4); (58%N, format_02x m5)].
    split; [reflexivity|].
    split; [apply lower_hex_group_hex_group; assumption|].
    split; [|reflexivity].
    repeat (apply Forall_cons;
            [split; [left; reflexivity
                    | apply lower_hex_group_hex_group; assumption]|]).
    apply Forall_nil.
  - exists o. split; [|split; assumption].
    assert (Eh : hd [] (split_groups a) = format_02x o).
    { rewrite Ea. rewrite (format_02x_octet Ro).
      assert (D : forall d, 0 <= d < 16 ->
                  ((hex_digit d =? 58) || (hex_digit d =? 45))%N = false).
      { intros d Hd. pose proof (hex_digit_lower Hd) as Hc.
        unfold lower_hex_digit_char in Hc.
        apply orb_false_iff. split; apply N.eqb_neq; lia. }
      cbn [join app split_groups].
      rewrite !D.
      - cbn [N.eqb Pos.eqb orb].
        destruct (split_groups _); reflexivity.
      - apply Z.mod_pos_bound; lia.
      - split; [apply Z.div_pos; lia | apply Z.div_lt_upper_bound; lia]. }
    rewrite Eh. apply int16_format_02x. assumption.
  - exists (format_02x o), (format_02x m1), (format_02x m2), (format_02x m3),
      (format_02x m4), (format_02x m5).
    split; [exact Ea|].
    repeat (apply Forall_cons; [assumption|]). apply Forall_nil.
Qed.

End Generation.

(* ================================================================== *)
(** ** The methods of [MACChanger] *)
(* ================================================================== *)

Section Methods.

Variable H : host.
Variable L : pylib.

Local Open Scope string_scope.
Local Open Scope list_scope.

Lemma commands_app (t u : list event) :
  commands (t ++ u) = commands t ++ commands u.
Proof. unfold commands. apply flat_map_app. Qed.

Lemma commands_print (t : list event) (line : str) :
  commands (t ++ [Print line]) = commands t.
Proof. rewrite commands_app. cbn. apply app_nil_r. Qed.

(** *** [generate_random_mac] *)

Lemma generate_random_mac_run (w : world) :
  generate_random_mac H w =
  (Ok (format_mac
         (set_local_unicast
            (map (fun i => (entropy H (i + draws w) mod 256)%Z)
                 [0; 1; 2; 3; 4; 5]))),
   {| trace := trace w; draws := 6 + draws w |}).
Proof. reflexivity. Qed.

(** C2: [generate_random_mac] returns, and whatever the generator
    draws, the address it returns passes [validate_mac], its first octet
    has bit 0 clear and bit 1 set, and it is written as six groups of two
    lower-case hexadecimal digits joined by [:]. *)
Theorem generate_random_mac_valid :
  forall w : world,
  exists a w',
    generate_random_mac H w = (Ok a, w')
    /\ validate_mac a = true
    /\ (exists o, int16 (hd [] (split_groups a)) = Some o
                  /\ Z.testbit o 0 = false /\ Z.testbit o 1 = true)
    /\ (exists g0 g1 g2 g3 g4 g5,
           a = join [58%N] [g0; g1; g2; g3; g4; g5]
           /\ Forall lower_hex_group [g0; g1; g2; g3; g4; g5]).
Proof.
  intros w. eexists. eexists.
  split; [apply generate_random_mac_run|].
  cbn [map].
  apply format_mac_local_unicast.
  repeat (apply Forall_cons; [apply Z.mod_pos_bound; lia|]).
  apply Forall_nil.
Qed.

(** *** [change_mac] *)

(** C4: when [validate_mac] rejects the address, [change_mac] returns
    [False] and starts no command, on any interface: it only prints. *)
Theorem change_mac_invalid_no_command :
  forall (self : MACChanger) (interface new_mac : str) (w : world),
    validate_mac new_mac = false ->
    exists w',
      change_mac H L self interface new_mac w = (Ok false, w')
      /\ commands (trace w') = commands (trace w)
      /\ draws w' = draws w.
Proof.
  intros self interface new_mac w Hv.
  unfold change_mac. rewrite Hv. cbn [negb].
  eexists. split; [reflexivity|].
  split; [apply commands_print | reflexivity].
Qed.

(** *** [get_current_mac] and [verify_change] *)

(** An address that [get_current_mac] returns comes from the scan. *)
Lemma get_current_mac_found (self : MACChanger) (interface : str)
      (w w' : world) (current : str) :
  get_current_mac H L self interface w = (Ok (Some current), w') ->
  six_hex_groups current.
Proof.
  unfold get_current_mac, try_except.
  match goal with
  | |- context [bind ?c ?k w] => destruct (bind c k w) as [[found|e] w1] eqn:E
  end.
  - intros R. injection R as -> ->.
    unfold bind in E.
    match type of E with
    | context [?c w] => destruct (c w) as [[out|e] w2]
    end; [|discriminate].
    unfold decode_utf8 in E.
    destruct (decode out) as [text|]; [|discriminate].
    cbn in E. injection E as E _.
    pose proof (search_from_leftmost text 0) as Hs.
    unfold search_mac, re_search in E. rewrite E in Hs.
    destruct Hs as (i & Hs & _). exact Hs.
  - destruct e as [[cmd rc err|object|msg]| |code]; cbn; discriminate.
Qed.

Lemma six_hex_groups_truthy (t : str) :
  six_hex_groups t -> PyStr.truthy t = true.
Proof.
  intros Ht. apply six_hex_groups_length in Ht.
  destruct t; [discriminate | reflexivity].
Qed.

(** C7: [verify_change] returns [True] exactly when the address read
    again is found and equals the expected one once both are
    lower-cased; when nothing is found, or the two differ, it returns
    [False]. *)
Theorem verify_change_iff :
  forall (self : MACChanger) (interface expected_mac : str) (w : world),
    (fst (verify_change H L self interface expected_mac w) = Ok true
     <-> exists current,
           fst (get_current_mac H L self interface w) = Ok (Some current)
           /\ lower L current = lower L expected_mac)
    /\ (fst (get_current_mac H L self interface w) = Ok None ->
        fst (verify_change H L self interface expected_mac w) = Ok false)
    /\ (forall current,
           fst (get_current_mac H L self interface w) = Ok (Some current) ->
           lower L current <> lower L expected_mac ->
           fst (verify_change H L self interface expected_mac w) = Ok false).
Proof.
  intros self interface expected_mac w.
  unfold verify_change, bind.
  destruct (get_current_mac H L self interface w) as [[[current|]|e] w1] eqn:G;
    cbn [fst].
  - apply get_current_mac_found in G. apply six_hex_groups_truthy in G.
    rewrite G. cbn [andb].
    destruct (str_eqb (lower L current) (lower L expected_mac)) eqn:Eq.
    + apply str_eqb_eq in Eq. cbn. split; [|split].
      * split; [intros _; exists current; auto | reflexivity].
      * discriminate.
      * intros c E. injection E as <-. contradiction.
    + assert (Ne : lower L current <> lower L expected_mac).
      { intros E. apply str_eqb_eq in E. congruence. }
      cbn. split; [|split].
      * split; [discriminate|].
        intros (c & E & Hc). injection E as <-. contradiction.
      * discriminate.
      * reflexivity.
  - cbn. split; [|split].
    + split; [discriminate|]. intros (c & E & _). discriminate.
    + reflexivity.
    + discriminate.
  - split; [|split].
    + split; [discriminate|]. intros (c & E & _). discriminate.
    + discriminate.
    + discriminate.
Qed.

End Methods.

(* ================================================================== *)
(** ** Interrupts *)
(* ================================================================== *)

Section Interrupts.

Variable H : host.
Variable L : pylib.

Local Open Scope string_scope.
Local Open Scope list_scope.

(** An event of [a1 ++ a2] lies in [a1] or in [a2]. *)
Lemma app_eq_middle {A : Type} (a1 a2 pre post : list A) (x : A) :
  a1 ++ a2 = pre ++ x :: post ->
  (exists post1, a1 = pre ++ x :: post1 /\ post = post1 ++ a2)
  \/ (exists pre2, pre = a1 ++ pre2 /\ a2 = pre2 ++ x :: post).
Proof.
  revert pre. induction a1 as [|y a1 IH]; intros pre E.
  - right. exists pre. split; [reflexivity | exact E].
  - destruct pre as [|z pre].
    + injection E as -> E. left. exists a1. split; [reflexivity | auto].
    + injection E as -> E. destruct (IH pre E) as [(p1 & -> & ->)|(p2 & -> & ->)].
      * left. exists p1. split; reflexivity.
      * right. exists p2. split; reflexivity.
Qed.

Lemma interrupted_in_app (t a1 a2 : list event) :
  interrupted_in H t (a1 ++ a2) ->
  interrupted_in H t a1 \/ interrupted_in H (t ++ a1) a2.
Proof.
  intros (pre & argv & post & E & Ho).
  apply app_eq_middle in E.
  destruct E as [(post1 & -> & _)|(pre2 & -> & ->)].
  - left. exists pre, argv, post1. split; [reflexivity | exact Ho].
  - right. exists pre2, argv, post. split; [reflexivity|].
    rewrite <- app_assoc. exact Ho.
Qed.

Lemma interrupted_in_nil (t : list event) : ~ interrupted_in H t [].
Proof. intros (pre & argv & post & E & _). destruct pre; discriminate. Qed.

Lemma interrupted_in_print (t : list event) (line : str) :
  ~ interrupted_in H t [Print line].
Proof.
  intros (pre & argv & post & E & _).
  destruct pre as [|? [|? ?]]; discriminate.
Qed.

(** *** The combinators *)

Lemma transparent_ret {A : Type} (a : A) : transparent H (ret a).
Proof.
  intros w r w' E. injection E as <- <-. exists [].
  split; [symmetry; apply app_nil_r|].
  intros Hi. apply interrupted_in_nil in Hi. contradiction.
Qed.

Lemma transparent_raise {A : Type} (e : exn) : transparent H (@raise A e).
Proof.
  intros w r w' E. injection E as <- <-. exists [].
  split; [symmetry; apply app_nil_r|].
  intros Hi. apply interrupted_in_nil in Hi. contradiction.
Qed.

Lemma transparent_print (line : str) : transparent H (print line).
Proof.
  intros w r w' E. injection E as <- <-. exists [Print line].
  split; [reflexivity|].
  intros Hi. apply interrupted_in_print in Hi. contradiction.
Qed.

Lemma transparent_randint (lo hi : Z) : transparent H (randint H lo hi).
Proof.
  intros w r w' E. injection E as <- <-. exists [].
  split; [symmetry; apply app_nil_r|].
  intros Hi. apply interrupted_in_nil in Hi. contradiction.
Qed.

Lemma transparent_spawn (argv : list str) : transparent H (spawn H argv).
Proof.
  intros w r w' E. unfold spawn in E. exists [Exec argv].
  destruct (os_run H (trace w) argv) as [rc out err|msg|] eqn:Ho;
    injection E as <- <-; (split; [reflexivity|]).
  - intros (pre & argv' & post & Ea & Hi).
    destruct pre as [|? [|? ?]]; try discriminate.
    injection Ea as <- _. rewrite app_nil_r in Hi. congruence.
  - intros (pre & argv' & post & Ea & Hi).
    destruct pre as [|? [|? ?]]; try discriminate.
    injection Ea as <- _. rewrite app_nil_r in Hi. congruence.
  - reflexivity.
Qed.

Lemma transparent_bind {A B : Type} (c : M A) (k : A -> M B) :
  transparent H c -> (forall a, transparent H (k a)) ->
  transparent H (bind c k).
Proof.
  intros Hc Hk w r w' E. unfold bind in E.
  destruct (c w) as [[a|e] w1] eqn:Ec.
  - destruct (Hc _ _ _ Ec) as (a1 & T1 & I1).
    destruct (Hk a _ _ _ E) as (a2 & T2 & I2).
    exists (a1 ++ a2). split; [rewrite T2, T1; symmetry; apply app_assoc|].
    intros Hi. apply interrupted_in_app in Hi. destruct Hi as [Hi|Hi].
    + specialize (I1 Hi). discriminate.
    + apply I2. rewrite T1. exact Hi.
  - injection E as <- <-. destruct (Hc _ _ _ Ec) as (a1 & T1 & I1).
    exists a1. split; [exact T1|].
    intros Hi. specialize (I1 Hi). injection I1 as ->. reflexivity.
Qed.

Lemma transparent_try {A : Type} (body : M A) (clauses : exn -> option (M A)) :
  transparent H body ->
  clauses KeyboardInterrupt = None ->
  (forall e handler, clauses e = Some handler -> transparent H handler) ->
  transparent H (try_except body clauses).
Proof.
  intros Hb Hk Hh w r w' E. unfold try_except in E.
  destruct (body w) as [[a|e] w1] eqn:Eb.
  - injection E as <- <-. exact (Hb _ _ _ Eb).
  - destruct (clauses e) as [handler|] eqn:Ec.
    + destruct (Hb _ _ _ Eb) as (a1 & T1 & I1).
      destruct (Hh _ _ Ec _ _ _ E) as (a2 & T2 & I2).
      exists (a1 ++ a2). split; [rewrite T2, T1; symmetry; apply app_assoc|].
      intros Hi. apply interrupted_in_app in Hi. destruct Hi as [Hi|Hi].
      * specialize (I1 Hi). injection I1 as ->. congruence.
      * apply I2. rewrite T1. exact Hi.
    + injection E as <- <-. exact (Hb _ _ _ Eb).
Qed.

Lemma transparent_for_each {A : Type} (xs : list A) (body : A -> M unit) :
  (forall x, transparent H (body x)) -> transparent H (for_each xs body).
Proof.
  intros Hb. induction xs as [|x xs IH]; cbn [for_each].
  - apply transparent_ret.
  - apply transparent_bind; [apply Hb | intros _; exact IH].
Qed.

Lemma transparent_replicateM {A : Type} (n : nat) (c : M A) :
  transparent H c -> transparent H (replicateM n c).
Proof.
  intros Hc. induction n as [|n IH]; cbn [replicateM].
  - apply transparent_ret.
  - apply transparent_bind; [exact Hc|]. intros x.
    apply transparent_bind; [exact IH|]. intros xs. apply transparent_ret.
Qed.

(** One step of a proof that a piece of the tool is [transparent]. *)
Ltac transparency_step :=
  first
    [ apply transparent_ret
    | apply transparent_raise
    | apply transparent_print
    | apply transparent_randint
    | apply transparent_spawn
    | apply transparent_for_each; intros ?
    | apply transparent_replicateM
    | apply transparent_bind; [|intros ?]
    | match goal with
      | |- transparent _ (if ?b then _ else _) => destruct b
      | |- transparent _ (match ?x with _ => _ end) => destruct x
      end ].

Ltac transparency := repeat transparency_step.

(** *** The pieces of the tool *)

Lemma transparent_check_output (argv : list str) :
  transparent H (check_output H argv).
Proof. unfold check_output. transparency. Qed.

Lemma transparent_run (argv : list str) (check piped : bool) :
  transparent H (run H argv check piped).
Proof. unfold run. transparency. Qed.

Lemma transparent_decode_utf8 (b : bytes) : transparent H (decode_utf8 b).
Proof. unfold decode_utf8. transparency. Qed.

Lemma transparent_get_current_mac (self : MACChanger) (interface : str) :
  transparent H (get_current_mac H L self interface).
Proof.
  unfold get_current_mac. apply transparent_try.
  - apply transparent_bind.
    + destruct (str_eqb _ _); apply transparent_check_output.
    + intros out. apply transparent_bind;
        [apply transparent_decode_utf8 | intros; apply transparent_ret].
  - reflexivity.
  - intros [[cmd rc err|object|msg]| |code] handler E;
      try discriminate; injection E as <-; unfold _error; transparency.
Qed.

Lemma transparent_generate_random_mac :
  transparent H (generate_random_mac H).
Proof. unfold generate_random_mac. transparency. Qed.

Lemma transparent_change_mac (self : MACChanger) (interface new_mac : str) :
  transparent H (change_mac H L self interface new_mac).
Proof.
  unfold change_mac, _error, _info, _warning.
  destruct (negb (validate_mac new_mac)); [transparency|].
  apply transparent_bind; [apply transparent_print|]. intros _.
  apply transparent_try.
  - apply transparent_bind; [|intros; apply transparent_ret].
    destruct (str_eqb _ _);
      repeat (apply transparent_bind; [apply transparent_run | intros _]);
      apply transparent_run.
  - reflexivity.
  - intros [[cmd rc err|object|msg]| |code] handler E;
      try discriminate; injection E as <-.
    + apply transparent_bind.
      * destruct err as [err|]; [|apply transparent_ret].
        destruct (PyBytes.truthy err);
          [apply transparent_decode_utf8 | apply transparent_ret].
      * intros detail. transparency.
    + transparency.
    + transparency.
Qed.

Lemma transparent_list_interfaces (self : MACChanger) :
  transparent H (list_interfaces H L self).
Proof.
  unfold list_interfaces, _info, _error.
  apply transparent_bind; [apply transparent_print|]. intros _.
  apply transparent_try.
  - apply transparent_bind.
    + destruct (str_eqb _ _);
        (apply transparent_bind; [apply transparent_check_output|]);
        intros out;
        (apply transparent_bind; [apply transparent_decode_utf8|]);
        intros text; apply transparent_ret.
    + intros interfaces. apply transparent_for_each. intros iface.
      apply transparent_bind; [apply transparent_get_current_mac|].
      intros mac. destruct (truthy_opt mac); apply transparent_print.
  - reflexivity.
  - intros [[cmd rc err|object|msg]| |code] handler E;
      try discriminate; injection E as <-; apply transparent_print.
Qed.

Lemma transparent_verify_change (self : MACChanger)
      (interface expected_mac : str) :
  transparent H (verify_change H L self interface expected_mac).
Proof.
  unfold verify_change, _success, _error.
  apply transparent_bind; [apply transparent_get_current_mac|].
  intros current_mac. transparency.
Qed.

Lemma transparent_init : transparent H (__init__ H).
Proof. unfold __init__, _error, sys_exit. transparency. Qed.

(** Nothing in [main] holds a [KeyboardInterrupt] back. *)
Lemma transparent_main (args : Args) : transparent H (main H L args).
Proof.
  unfold main, _print_banner, _info, _error, sys_exit.
  apply transparent_bind; [apply transparent_init|]. intros changer.
  apply transparent_bind; [apply transparent_print|]. intros _.
  apply transparent_bind.
  { destruct (args_list args); [|apply transparent_ret].
    apply transparent_bind; [apply transparent_list_interfaces|].
    intros _. apply transparent_raise. }
  intros _. apply transparent_bind; [transparency|]. intros _.
  cbv zeta.
  apply transparent_bind.
  { destruct (args_show args); [|apply transparent_ret].
    apply transparent_bind; [apply transparent_get_current_mac|].
    intros current_mac. transparency. }
  intros _.
  apply transparent_bind; [apply transparent_get_current_mac|].
  intros old_mac.
  apply transparent_bind; [transparency|]. intros _.
  apply transparent_bind; [apply transparent_print|]. intros _.
  apply transparent_bind.
  { destruct (args_random args).
    - apply transparent_bind; [apply transparent_generate_random_mac|].
      intros new_mac. transparency.
    - transparency. }
  intros new_mac.
  apply transparent_bind; [apply transparent_change_mac|].
  intros [|]; [|apply transparent_raise].
  apply transparent_bind; [apply transparent_verify_change|].
  intros _. apply transparent_ret.
Qed.

(** What the [__main__] block does with the outcome of [main]. *)
Lemma dunder_main_on_interrupt (args : Args) (w w1 : world) :
  main H L args w = (Raise KeyboardInterrupt, w1) ->
  exit_status (fst (dunder_main H L args w)) = 0%Z.
Proof.
  intros E. unfold dunder_main, try_except. rewrite E. reflexivity.
Qed.

(** C8: when the user interrupts a command that the tool is waiting
    for, [main] ends in [KeyboardInterrupt], whichever [try] the command
    was started in, and the process ends with exit status 0. *)
Theorem keyboard_interrupt_exits_zero :
  forall (args : Args) (w : world),
    interrupted_during H (trace w) (trace (snd (dunder_main H L args w))) ->
    fst (main H L args w) = Raise KeyboardInterrupt
    /\ run_tool H L args w = 0%Z.
Proof.
  intros args w. unfold run_tool.
  destruct (main H L args w) as [r1 w1] eqn:Em.
  pose proof (transparent_main args) as Tm.
  destruct (Tm _ _ _ Em) as (a1 & T1 & I1). clear Tm.
  intros (added & Ea & Hi).
  destruct r1 as [u|[e| |code]].
  - exfalso. unfold dunder_main, try_except in Ea. rewrite Em in Ea.
    cbn [snd] in Ea. rewrite T1 in Ea. apply app_inv_head in Ea. subst added.
    specialize (I1 Hi). discriminate.
  - exfalso. unfold dunder_main, try_except in Ea. rewrite Em in Ea.
    cbn in Ea. rewrite T1, <- app_assoc in Ea.
    apply app_inv_head in Ea. subst added.
    apply interrupted_in_app in Hi. destruct Hi as [Hi|Hi].
    + specialize (I1 Hi). discriminate.
    + apply interrupted_in_print in Hi. contradiction.
  - split; [reflexivity|].
    eapply dunder_main_on_interrupt. exact Em.
  - exfalso. unfold dunder_main, try_except in Ea. rewrite Em in Ea.
    cbn [snd] in Ea. rewrite T1 in Ea. apply app_inv_head in Ea. subst added.
    specialize (I1 Hi). discriminate.
Qed.

End Interrupts.

(* ================================================================== *)
(** ** Runs on the sample hosts *)
(* ================================================================== *)

Section Runs.

Local Open Scope string_scope.
Local Open Scope list_scope.

(** The scenarios of the specification that [validate_mac] rejects, and
    the one with hyphens that it accepts. *)
Lemma validate_mac_scenarios :
  validate_mac (lit "") = false
  /\ validate_mac (lit "00:11:22:33:44") = false
  /\ validate_mac (lit "gg:11:22:33:44:55") = false
  /\ validate_mac (lit "0:11:222:33:44:55") = false
  /\ validate_mac (lit " 00:11:22:33:44:55") = false
  /\ validate_mac (lit "00:11:22:33:44:55 ") = false
  /\ validate_mac (lit "00-11-22-33-44-55") = true.
Proof. repeat split; reflexivity. Qed.

(** The instance of C9 on groups of mixed case with the separators
    [: - - : -]. *)
Lemma validate_mac_mixed_separators_witness :
  validate_mac (lit "0A:1b-2C-3d:4E-5f") = true.
Proof.
  apply (proj1 validate_mac_mixed_separators
           (lit "0A") (lit "1b") (lit "2C") (lit "3d") (lit "4E") (lit "5f")
           58%N 45%N 45%N 58%N 45%N).
  - repeat (apply Forall_cons; [apply hex_group_check; reflexivity|]).
    apply Forall_nil.
  - repeat (apply Forall_cons;
            [first [left; reflexivity | right; reflexivity]|]).
    apply Forall_nil.
Defined.

(** The instance of C4 on the five-group address of the specification:
    nothing is started on the host. *)
Lemma change_mac_invalid_no_command_witness :
  validate_mac (lit "00:11:22:33:44") = false
  /\ exists w',
       change_mac linux_host sample_lib {| self_system := lit "Linux" |}
                  (lit "eth0") (lit "00:11:22:33:44") initial_world
       = (Ok false, w')
       /\ commands (trace w') = commands (trace initial_world)
       /\ draws w' = draws initial_world.
Proof.
  split; [reflexivity|].
  apply (@change_mac_invalid_no_command linux_host sample_lib
           {| self_system := lit "Linux" |} (lit "eth0")
           (lit "00:11:22:33:44") initial_world).
  reflexivity.
Defined.

(** The instance of C7 on the Linux host: the address shown is
    ["02:1a:3c:4d:5e:6f"], so an expected address that differs from it
    in case only is confirmed and another one is not. *)
Lemma verify_change_iff_witness :
  fst (verify_change linux_host sample_lib {| self_system := lit "Linux" |}
         (lit "eth0") (lit "02:1A:3C:4D:5E:6F") initial_world) = Ok true
  /\ fst (verify_change linux_host sample_lib {| self_system := lit "Linux" |}
            (lit "eth0") (lit "02:1a:3c:4d:5e:70") initial_world) = Ok false.
Proof.
  split.
  - apply (proj1 (@verify_change_iff linux_host sample_lib
                    {| self_system := lit "Linux" |} (lit "eth0")
                    (lit "02:1A:3C:4D:5E:6F") initial_world)).
    exists (lit "02:1a:3c:4d:5e:6f"). split; reflexivity.
  - apply (proj2 (proj2 (@verify_change_iff linux_host sample_lib
                           {| self_system := lit "Linux" |} (lit "eth0")
                           (lit "02:1a:3c:4d:5e:70") initial_world))
             (lit "02:1a:3c:4d:5e:6f")).
    + reflexivity.
    + discriminate.
Defined.

(** The instance of C8: the user interrupts [sudo ip link set eth0 down],
    the fifth event of the run, inside the [try] of [change_mac]; the
    process ends with status 0. *)
Lemma keyboard_interrupt_exits_zero_witness :
  interrupted_during interrupting_host (trace initial_world)
    (trace (snd (dunder_main interrupting_host sample_lib
                   (set_mac_args (lit "aa:bb:cc:dd:ee:ff")) initial_world)))
  /\ fst (main interrupting_host sample_lib
            (set_mac_args (lit "aa:bb:cc:dd:ee:ff")) initial_world)
     = Raise KeyboardInterrupt
  /\ run_tool interrupting_host sample_lib
       (set_mac_args (lit "aa:bb:cc:dd:ee:ff")) initial_world = 0%Z.
Proof.
  assert (Hi : interrupted_during interrupting_host (trace initial_world)
                 (trace (snd (dunder_main interrupting_host sample_lib
                                (set_mac_args (lit "aa:bb:cc:dd:ee:ff"))
                                initial_world)))).
  { exists (trace (snd (dunder_main interrupting_host sample_lib
                          (set_mac_args (lit "aa:bb:cc:dd:ee:ff"))
                          initial_world))).
    split; [reflexivity|].
    exists (firstn 4 (trace (snd (dunder_main interrupting_host sample_lib
                                    (set_mac_args (lit "aa:bb:cc:dd:ee:ff"))
                                    initial_world)))),
      [lit "sudo"; lit "ip"; lit "link"; lit "set"; lit "eth0"; lit "down"],
      (skipn 5 (trace (snd (dunder_main interrupting_host sample_lib
                              (set_mac_args (lit "aa:bb:cc:dd:ee:ff"))
                              initial_world)))).
    split; vm_compute; reflexivity. }
  split; [exact Hi|].
  apply keyboard_interrupt_exits_zero. exact Hi.
Defined.

(** The same run without the interrupt: five commands are started and
    the new address is confirmed. *)
Lemma set_mac_run :
  run_tool linux_host sample_lib
    (set_mac_args (lit "aa:bb:cc:dd:ee:ff")) initial_world = 0%Z
  /\ commands (trace (snd (dunder_main linux_host sample_lib
                             (set_mac_args (lit "aa:bb:cc:dd:ee:ff"))
                             initial_world)))
     = [ [lit "ip"; lit "link"; lit "show"; lit "eth0"];
         [lit "sudo"; lit "ip"; lit "link"; lit "set"; lit "eth0"; lit "down"];
         [lit "sudo"; lit "ip"; lit "link"; lit "set"; lit "eth0";
          lit "address"; lit "aa:bb:cc:dd:ee:ff"];
         [lit "sudo"; lit "ip"; lit "link"; lit "set"; lit "eth0"; lit "up"];
         [lit "ip"; lit "link"; lit "show"; lit "eth0"] ].
Proof. split; vm_compute; reflexivity. Qed.

End Runs.

(* ================================================================== *)
(** ** More on the patterns and on the formatting *)
(* ================================================================== *)

Section CodecFacts.

Local Open Scope string_scope.
Local Open Scope list_scope.

Lemma six_hex_groups_firstn (m tail : str) :
  six_hex_groups m -> firstn 17 (m ++ tail) = m.
Proof.
  intros Hm. apply six_hex_groups_length in Hm.
  rewrite <- Hm. rewrite firstn_app, Nat.sub_diag, firstn_all.
  cbn [firstn]. apply app_nil_r.
Qed.

Lemma search_mac_six (raw a : str) :
  search_mac raw = Some a -> six_hex_groups a.
Proof.
  intros E. pose proof (search_from_leftmost raw 0) as Hs.
  unfold search_mac, re_search in E. rewrite E in Hs.
  destruct Hs as (i & Hs & _). exact Hs.
Qed.

(** X1: the scan and the validation agree: whatever the scan of
    [get_current_mac] returns has 17 characters and passes
    [validate_mac], and a text that passes [validate_mac] is found by
    the scan, as its first 17 characters. *)
Theorem scan_agrees_with_validation :
  forall t : str,
    (forall a, search_mac t = Some a ->
               validate_mac a = true /\ length a = 17)
    /\ (validate_mac t = true -> search_mac t = Some (firstn 17 t)).
Proof.
  intros t. split.
  - intros a E. apply search_mac_six in E.
    split; [apply validate_mac_six | apply six_hex_groups_length]; assumption.
  - intros Hv. apply validate_mac_accepts in Hv.
    destruct Hv as (m & Hm & Ht).
    assert (E : exists tail, t = m ++ tail).
    { destruct Ht as [->| ->]; [exists []; symmetry; apply app_nil_r|].
      exists [newline]; reflexivity. }
    destruct E as (tail & ->).
    rewrite (six_hex_groups_firstn tail Hm).
    unfold search_mac, re_search.
    assert (M : match_at mac_pattern 0 (m ++ tail) = Some (m, tail))
      by (apply match_mac_pattern; auto).
    destruct m as [|c m]; [apply six_hex_groups_length in Hm; discriminate|].
    cbn [app search_from] in *. rewrite M. reflexivity.
Qed.

(** *** Formatting *)

Lemma format_02x_injective (n n' : Z) :
  (0 <= n < 256)%Z -> (0 <= n' < 256)%Z ->
  format_02x n = format_02x n' -> n = n'.
Proof.
  intros Hn Hn' E.
  pose proof (int16_format_02x Hn) as A.
  pose proof (int16_format_02x Hn') as B.
  rewrite E in A. congruence.
Qed.

Lemma format_02x_no_separator (n : Z) :
  (0 <= n < 256)%Z ->
  Forall (fun c => ((c =? 58) || (c =? 45))%N = false) (format_02x n).
Proof.
  intros Hn. destruct (format_02x_lower Hn) as [_ F].
  eapply Forall_impl; [|exact F].
  intros c Hc. unfold lower_hex_digit_char in Hc.
  apply orb_false_iff. split; apply N.eqb_neq; lia.
Qed.

Lemma format_mac_cons (x y : Z) (rest : list Z) :
  format_mac (x :: y :: rest)
  = format_02x x ++ 58%N :: format_mac (y :: rest).
Proof. reflexivity. Qed.

Lemma split_groups_group (g : str) (c : char) (rest : str) :
  Forall (fun c => ((c =? 58) || (c =? 45))%N = false) g ->
  ((c =? 58) || (c =? 45))%N = true ->
  split_groups (g ++ c :: rest) = g :: split_groups rest.
Proof.
  intros F Hc. induction F as [|d g Hd F IH].
  - cbn [app split_groups]. rewrite Hc. reflexivity.
  - cbn [app split_groups]. rewrite Hd, IH. reflexivity.
Qed.

Lemma split_groups_last (g : str) :
  Forall (fun c => ((c =? 58) || (c =? 45))%N = false) g ->
  split_groups g = [g].
Proof.
  intros F. induction F as [|d g Hd F IH]; [reflexivity|].
  cbn [split_groups]. rewrite Hd, IH. reflexivity.
Qed.

(** Reading a written address back gives its octets. *)
Lemma octets_of_format_mac (mac : list Z) :
  mac <> [] ->
  Forall (fun m => 0 <= m < 256)%Z mac ->
  octets_of (format_mac mac) = map Some mac.
Proof.
  intros Hne F. unfold octets_of.
  induction F as [|x mac Hx F IH]; [contradiction|].
  destruct mac as [|y mac].
  - cbn [format_mac map join].
    rewrite split_groups_last by (apply format_02x_no_separator; assumption).
    cbn [map]. rewrite int16_format_02x by assumption. reflexivity.
  - rewrite format_mac_cons.
    rewrite split_groups_group;
      [|apply format_02x_no_separator; assumption | reflexivity].
    cbn [map]. rewrite int16_format_02x by assumption.
    rewrite IH by discriminate. reflexivity.
Qed.

Lemma format_mac_nonempty (mac : list Z) :
  mac <> [] ->
  Forall (fun m => 0 <= m < 256)%Z mac ->
  format_mac mac <> [].
Proof.
  intros Hne F E. destruct mac as [|x mac]; [contradiction|].
  inversion F as [|? ? Hx _]; subst.
  pose proof (format_02x_octet Hx) as Ex.
  destruct mac as [|y mac].
  - cbn [format_mac map join] in E. rewrite Ex in E. discriminate.
  - rewrite format_mac_cons, Ex in E. discriminate.
Qed.

(** X2: the text of an address determines its octets: two lists of
    octets that are written alike are the same list. *)
Theorem format_mac_injective :
  forall mac mac' : list Z,
    Forall (fun m => 0 <= m < 256)%Z mac ->
    Forall (fun m => 0 <= m < 256)%Z mac' ->
    format_mac mac = format_mac mac' ->
    mac = mac'.
Proof.
  intros mac mac' F F' E.
  destruct mac as [|x mac], mac' as [|x' mac'].
  - reflexivity.
  - exfalso. symmetry in E. revert E.
    apply format_mac_nonempty; [discriminate | assumption].
  - exfalso. revert E.
    apply format_mac_nonempty; [discriminate | assumption].
  - assert (O : map Some (x :: mac) = map Some (x' :: mac')).
    { rewrite <- !octets_of_format_mac by (assumption || discriminate).
      rewrite E. reflexivity. }
    clear E F F'. revert O. generalize (x :: mac) (x' :: mac').
    intros l. induction l as [|a l IH]; intros [|b l'] O;
      try discriminate; [reflexivity|].
    cbn [map] in O. injection O as -> O. f_equal. apply IH. exact O.
Qed.

Lemma format_mac_injective_witness :
  Forall (fun m => 0 <= m < 256)%Z [2; 26; 60; 77; 94; 111]%Z
  /\ format_mac [2; 26; 60; 77; 94; 111]%Z
     = format_mac (map (fun m => m mod 256)%Z [258; 26; 60; 77; 94; 111]%Z)
  /\ [2; 26; 60; 77; 94; 111]%Z
     = map (fun m => m mod 256)%Z [258; 26; 60; 77; 94; 111]%Z.
Proof.
  assert (F : Forall (fun m => 0 <= m < 256)%Z [2; 26; 60; 77; 94; 111]%Z).
  { repeat (apply Forall_cons; [lia|]). apply Forall_nil. }
  split; [exact F|]. split; [reflexivity|].
  apply format_mac_injective; [exact F | | reflexivity].
  repeat (apply Forall_cons; [apply Z.mod_pos_bound; lia|]). apply Forall_nil.
Defined.

End CodecFacts.

(* ================================================================== *)
(** ** How the methods end and what they start *)
(* ================================================================== *)

Section Outcomes.

Variable H : host.
Variable L : pylib.

Local Open Scope string_scope.
Local Open Scope list_scope.

(** *** The combinators and [raises] *)

Lemma raises_ret (R : exn -> Prop) {A : Type} (a : A) : raises R (ret a).
Proof. intros w r w' E. injection E as <- <-. exact I. Qed.


Lemma raises_print (R : exn -> Prop) (line : str) : raises R (print line).
Proof. intros w r w' E. injection E as <- <-. exact I. Qed.



Lemma raises_bind (R : exn -> Prop) {A B : Type} (c : M A) (k : A -> M B) :
  raises R c -> (forall a, raises R (k a)) -> raises R (bind c k).
Proof.
  intros Hc Hk w r w' E. unfold bind in E.
  destruct (c w) as [[a|e] w1] eqn:Ec.
  - exact (Hk a _ _ _ E).
  - injection E as <- <-. exact (Hc _ _ _ Ec).
Qed.








(** *** The combinators and [emits] *)

Lemma emits_ret (Q : event -> Prop) {A : Type} (a : A) : emits Q (ret a).
Proof.
  intros w r w' E. injection E as <- <-. exists [].
  split; [symmetry; apply app_nil_r | apply Forall_nil].
Qed.

Lemma emits_raise (Q : event -> Prop) {A : Type} (e : exn) :
  emits Q (@raise A e).
Proof.
  intros w r w' E. injection E as <- <-. exists [].
  split; [symmetry; apply app_nil_r | apply Forall_nil].
Qed.

Lemma emits_print (Q : event -> Prop) (line : str) :
  Q (Print line) -> emits Q (print line).
Proof.
  intros Hq w r w' E. injection E as <- <-. exists [Print line].
  split; [reflexivity | apply Forall_cons; [exact Hq | apply Forall_nil]].
Qed.

Lemma emits_randint (Q : event -> Prop) (lo hi : Z) :
  emits Q (randint H lo hi).
Proof.
  intros w r w' E. injection E as <- <-. exists [].
  split; [symmetry; apply app_nil_r | apply Forall_nil].
Qed.

Lemma emits_spawn (Q : event -> Prop) (argv : list str) :
  Q (Exec argv) -> emits Q (spawn H argv).
Proof.
  intros Hq w r w' E. unfold spawn in E. exists [Exec argv].
  split; [|apply Forall_cons; [exact Hq | apply Forall_nil]].
  destruct (os_run H (trace w) argv); injection E as <- <-; reflexivity.
Qed.

Lemma emits_bind (Q : event -> Prop) {A B : Type} (c : M A) (k : A -> M B) :
  emits Q c -> (forall a, emits Q (k a)) -> emits Q (bind c k).
Proof.
  intros Hc Hk w r w' E. unfold bind in E.
  destruct (c w) as [[a|e] w1] eqn:Ec.
  - destruct (Hc _ _ _ Ec) as (a1 & T1 & F1).
    destruct (Hk a _ _ _ E) as (a2 & T2 & F2).
    exists (a1 ++ a2). split; [rewrite T2, T1; symmetry; apply app_assoc|].
    apply Forall_app; auto.
  - injection E as <- <-. exact (Hc _ _ _ Ec).
Qed.

Lemma emits_try (Q : event -> Prop) {A : Type}
      (body : M A) (clauses : exn -> option (M A)) :
  emits Q body ->
  (forall e handler, clauses e = Some handler -> emits Q handler) ->
  emits Q (try_except body clauses).
Proof.
  intros Hb Hh w r w' E. unfold try_except in E.
  destruct (body w) as [[a|e] w1] eqn:Eb.
  - injection E as <- <-. exact (Hb _ _ _ Eb).
  - destruct (clauses e) as [handler|] eqn:Ec.
    + destruct (Hb _ _ _ Eb) as (a1 & T1 & F1).
      destruct (Hh _ _ Ec _ _ _ E) as (a2 & T2 & F2).
      exists (a1 ++ a2). split; [rewrite T2, T1; symmetry; apply app_assoc|].
      apply Forall_app; auto.
    + injection E as <- <-. exact (Hb _ _ _ Eb).
Qed.

Lemma emits_for_each (Q : event -> Prop) {A : Type}
      (xs : list A) (body : A -> M unit) :
  (forall x, emits Q (body x)) -> emits Q (for_each xs body).
Proof.
  intros Hb. induction xs as [|x xs IH]; cbn [for_each].
  - apply emits_ret.
  - apply emits_bind; [apply Hb | intros _; exact IH].
Qed.

Lemma emits_check_output (Q : event -> Prop) (argv : list str) :
  Q (Exec argv) -> emits Q (check_output H argv).
Proof.
  intros Hq. unfold check_output. apply emits_bind.
  - apply emits_spawn. exact Hq.
  - intros [[rc out] err]. destruct (rc =? 0)%Z;
      [apply emits_ret | apply emits_raise].
Qed.

Lemma emits_decode_utf8 (Q : event -> Prop) (b : bytes) :
  emits Q (decode_utf8 b).
Proof.
  unfold decode_utf8. destruct (decode b); [apply emits_ret | apply emits_raise].
Qed.

End Outcomes.

(* ================================================================== *)
(** ** Reading the address *)
(* ================================================================== *)

Section Reading.

Variable H : host.
Variable L : pylib.

Local Open Scope string_scope.
Local Open Scope list_scope.

Lemma read_command_unprivileged (self : MACChanger) (interface : str) :
  is_sudo (read_command self interface) = false.
Proof. unfold read_command. destruct (str_eqb _ _); reflexivity. Qed.

Lemma list_command_unprivileged (self : MACChanger) :
  is_sudo (list_command self) = false.
Proof. unfold list_command. destruct (str_eqb _ _); reflexivity. Qed.

(** [get_current_mac], case by case on what the host answers. *)
Lemma get_current_mac_run (self : MACChanger) (interface : str) (w : world) :
  exists r w',
    get_current_mac H L self interface w = (r, w')
    /\ commands (trace w')
       = commands (trace w) ++ [read_command self interface]
    /\ draws w' = draws w
    /\ r = match os_run H (trace w) (read_command self interface) with
           | Exited rc out _ =>
               Ok (if (rc =? 0)%Z
                   then match decode out with
                        | Some text => search_mac text
                        | None => None
                        end
                   else None)
           | SpawnFailed _ => Ok None
           | Interrupted => Raise KeyboardInterrupt
           end.
Proof.
  unfold get_current_mac, read_command.
  destruct (str_eqb (self_system self) (lit "Darwin"));
    cbv beta iota zeta delta [try_except bind check_output spawn];
    match goal with
    | |- context [os_run H (trace w) ?argv] =>
        destruct (os_run H (trace w) argv) as [rc out err|msg|]
    end;
    cbv beta iota zeta delta [ret raise decode_utf8 _error print emit bind];
    try (destruct (rc =? 0)%Z;
         cbv beta iota zeta delta [ret raise decode_utf8 _error print emit bind];
         try (destruct (decode out);
              cbv beta iota zeta delta [ret raise _error print emit bind]));
    eexists; eexists; (split; [reflexivity|]); cbn [trace draws];
    rewrite ?commands_print, commands_app; auto.
Qed.


(** X4: an address that [get_current_mac] returns always passes
    [validate_mac], and has 17 characters. *)
Theorem get_current_mac_returns_valid :
  forall (self : MACChanger) (interface : str) (w w' : world) (a : str),
    get_current_mac H L self interface w = (Ok (Some a), w') ->
    validate_mac a = true /\ length a = 17.
Proof.
  intros self interface w w' a E.
  apply get_current_mac_found in E.
  split; [apply validate_mac_six | apply six_hex_groups_length]; assumption.
Qed.

Lemma raises_get_current_mac (self : MACChanger) (interface : str) :
  raises only_interrupt (get_current_mac H L self interface).
Proof.
  intros w r w' E.
  destruct (get_current_mac_run self interface w) as (r0 & w0 & E0 & _ & _ & R).
  rewrite E in E0. injection E0 as <- <-. rewrite R.
  destruct (os_run H (trace w) (read_command self interface));
    cbn; auto. reflexivity.
Qed.

Lemma emits_get_current_mac (self : MACChanger) (interface : str) :
  emits unprivileged (get_current_mac H L self interface).
Proof.
  unfold get_current_mac. apply emits_try.
  - apply emits_bind.
    + pose proof (read_command_unprivileged self interface) as U.
      unfold read_command in U.
      destruct (str_eqb _ _); apply emits_check_output; exact U.
    + intros out. apply emits_bind;
        [apply emits_decode_utf8 | intros; apply emits_ret].
  - intros [[cmd rc err|object|msg]| |code] handler E;
      try discriminate; injection E as <-; unfold _error;
      (apply emits_bind; [apply emits_print; exact I|]);
      intros _; apply emits_ret.
Qed.

Lemma raises_verify_change (self : MACChanger) (interface expected : str) :
  raises only_interrupt (verify_change H L self interface expected).
Proof.
  unfold verify_change, _success, _error.
  apply raises_bind; [apply raises_get_current_mac|].
  intros [current|].
  - destruct (_ && _);
      (apply raises_bind; [apply raises_print | intros _; apply raises_ret]).
  - apply raises_bind; [apply raises_print | intros _; apply raises_ret].
Qed.

Lemma emits_verify_change (self : MACChanger) (interface expected : str) :
  emits unprivileged (verify_change H L self interface expected).
Proof.
  unfold verify_change, _success, _error.
  apply emits_bind; [apply emits_get_current_mac|].
  intros [current|].
  - destruct (_ && _);
      (apply emits_bind;
       [apply emits_print; exact I | intros _; apply emits_ret]).
  - apply emits_bind;
      [apply emits_print; exact I | intros _; apply emits_ret].
Qed.


Lemma emits_list_interfaces (self : MACChanger) :
  emits unprivileged (list_interfaces H L self).
Proof.
  unfold list_interfaces, _info, _error.
  apply emits_bind; [apply emits_print; exact I|]. intros _.
  apply emits_try.
  - apply emits_bind.
    + pose proof (list_command_unprivileged self) as U.
      unfold list_command in U.
      destruct (str_eqb _ _);
        (apply emits_bind; [apply emits_check_output; exact U|]);
        intros out;
        (apply emits_bind; [apply emits_decode_utf8|]);
        intros text; apply emits_ret.
    + intros interfaces. apply emits_for_each. intros iface.
      apply emits_bind; [apply emits_get_current_mac|].
      intros mac. destruct (truthy_opt mac); apply emits_print; exact I.
  - intros [[cmd rc err|object|msg]| |code] handler E;
      try discriminate; injection E as <-; apply emits_print; exact I.
Qed.


End Reading.

(* ================================================================== *)
(** ** Setting the address *)
(* ================================================================== *)

Section Setting.

Variable H : host.
Variable L : pylib.

Local Open Scope string_scope.
Local Open Scope list_scope.

(** Unfold the effects of a method down to the answers of the host. *)
Ltac unfold_effects :=
  cbv beta iota zeta
      delta [bind try_except ret raise run check_output spawn decode_utf8
             print emit _error _info _warning _success sys_exit andb negb];
  cbn [trace draws].


Lemma commands_exec (t : list event) (argv : list str) :
  commands (t ++ [Exec argv]) = commands t ++ [argv].
Proof. rewrite commands_app. reflexivity. Qed.


(** X7: on Linux, when the interface is brought down and the host then
    refuses the new address, [change_mac] does not return [True] and the
    command that brings the interface up again is never started. *)
Theorem change_mac_leaves_interface_down :
  forall (self : MACChanger) (interface new_mac : str) (w : world)
         (out0 err0 : bytes) (rc : Z) (out err : bytes),
    str_eqb (self_system self) (lit "Darwin") = false ->
    validate_mac new_mac = true ->
    os_run H (trace (announced interface new_mac w)) (down_command interface)
    = Exited 0 out0 err0 ->
    os_run H (trace (started (down_command interface)
                             (announced interface new_mac w)))
           (address_command interface new_mac)
    = Exited rc out err ->
    rc <> 0%Z ->
    fst (change_mac H L self interface new_mac w) <> Ok true
    /\ commands (trace (snd (change_mac H L self interface new_mac w)))
       = commands (trace w)
         ++ [down_command interface; address_command interface new_mac].
Proof.
  intros self interface new_mac w out0 err0 rc out err Hs Hv Hd Ha Hrc.
  unfold announced, printed, started, info_line in Hd, Ha.
  cbn [trace] in Hd, Ha.
  unfold down_command, address_command in *.
  unfold change_mac. rewrite Hv, Hs.
  unfold_effects. rewrite Hd. unfold_effects.
  change (0 =? 0)%Z with true. unfold_effects.
  rewrite Ha. unfold_effects.
  apply Z.eqb_neq in Hrc. rewrite Hrc. unfold_effects.
  destruct (PyBytes.truthy err); unfold_effects;
    [destruct (decode err); unfold_effects|];
    cbn [fst snd trace];
    repeat (rewrite commands_print || rewrite commands_exec);
    rewrite <- ?app_assoc; cbn [app];
    (split; [discriminate | reflexivity]).
Qed.

(** X8: on macOS the status of [airport -z] does not matter: whatever it
    is, [change_mac] goes on to [ifconfig ... ether] and returns [True]
    when that command exits with status 0. *)
Theorem change_mac_ignores_airport_status :
  forall (self : MACChanger) (interface new_mac : str) (w : world)
         (rc1 : Z) (out1 err1 out2 err2 : bytes),
    str_eqb (self_system self) (lit "Darwin") = true ->
    validate_mac new_mac = true ->
    os_run H (trace (announced interface new_mac w)) airport_command
    = Exited rc1 out1 err1 ->
    os_run H (trace (started airport_command
                             (announced interface new_mac w)))
           (ether_command interface new_mac)
    = Exited 0 out2 err2 ->
    change_mac H L self interface new_mac w
    = (Ok true,
       started (ether_command interface new_mac)
               (started airport_command (announced interface new_mac w))).
Proof.
  intros self interface new_mac w rc1 out1 err1 out2 err2 Hs Hv Ha He.
  unfold announced, printed, started, info_line in *.
  cbn [trace draws] in *.
  unfold airport_command, ether_command in *.
  unfold change_mac. rewrite Hv, Hs.
  unfold_effects. rewrite Ha. unfold_effects.
  rewrite He. unfold_effects.
  change (0 =? 0)%Z with true. unfold_effects. reflexivity.
Qed.



End Setting.

(* ================================================================== *)
(** ** Confirming, listing, generating *)
(* ================================================================== *)

Section Checking.

Variable H : host.
Variable L : pylib.

Local Open Scope string_scope.
Local Open Scope list_scope.

Lemma separated_groups_chars (n : nat) (t : str) :
  separated_groups n t ->
  Forall (fun c => hex_digit_char c \/ separator c) t.
Proof.
  intros (g & more & _ & Hg & F & ->).
  revert g Hg. induction F as [|[c g'] more [Hc Hg'] F IH]; intros g Hg.
  - destruct Hg as [_ Hg]. cbn [joined].
    eapply Forall_impl; [|exact Hg]. intros; left; assumption.
  - cbn [joined fst snd] in *. apply Forall_app. split.
    + destruct Hg as [_ Hg]. eapply Forall_impl; [|exact Hg].
      intros; left; assumption.
    + apply Forall_cons; [right; assumption | apply IH; assumption].
Qed.

Lemma six_hex_groups_ascii (t : str) :
  six_hex_groups t -> forallb is_ascii t = true.
Proof.
  intros Ht. apply separated_groups_chars in Ht.
  apply forallb_forall. intros c Hc.
  rewrite Forall_forall in Ht. specialize (Ht c Hc).
  unfold is_ascii. apply N.ltb_lt.
  unfold hex_digit_char, separator in Ht. lia.
Qed.

Lemma lower_six (t : str) :
  six_hex_groups t -> lower L t = map ascii_lower t.
Proof.
  intros Ht. unfold lower. rewrite six_hex_groups_ascii by assumption.
  reflexivity.
Qed.

Lemma ascii_lower_flip (c : char) :
  ascii_lower (flip_hex_case c) = ascii_lower c.
Proof.
  unfold flip_hex_case.
  destruct ((97 <=? c) && (c <=? 102))%N eqn:E1.
  - apply andb_true_iff in E1. destruct E1 as [A B].
    apply N.leb_le in A, B. unfold ascii_lower.
    assert (U : ((65 <=? c - 32) && (c - 32 <=? 90))%N = true)
      by (apply andb_true_iff; split; apply N.leb_le; lia).
    assert (V : ((65 <=? c) && (c <=? 90))%N = false)
      by (apply andb_false_iff; right; apply N.leb_gt; lia).
    rewrite U, V. lia.
  - destruct ((65 <=? c) && (c <=? 70))%N eqn:E2; [|reflexivity].
    apply andb_true_iff in E2. destruct E2 as [A B].
    apply N.leb_le in A, B. unfold ascii_lower.
    assert (U : ((65 <=? c + 32) && (c + 32 <=? 90))%N = false)
      by (apply andb_false_iff; right; apply N.leb_gt; lia).
    assert (V : ((65 <=? c) && (c <=? 90))%N = true)
      by (apply andb_true_iff; split; apply N.leb_le; lia).
    rewrite U, V. reflexivity.
Qed.

(** What [verify_change] answers once the address is read. *)
Lemma verify_change_run (self : MACChanger) (interface expected : str)
      (w w1 : world) (current : str) :
  get_current_mac H L self interface w = (Ok (Some current), w1) ->
  fst (verify_change H L self interface expected w)
  = Ok (str_eqb (lower L current) (lower L expected)).
Proof.
  intros E. unfold verify_change, bind. rewrite E.
  apply get_current_mac_found in E. apply six_hex_groups_truthy in E.
  rewrite E. cbn [andb].
  destruct (str_eqb (lower L current) (lower L expected)); reflexivity.
Qed.

Lemma verify_change_true (self : MACChanger) (interface expected : str)
      (w : world) :
  fst (verify_change H L self interface expected w) = Ok true ->
  exists current,
    six_hex_groups current /\ lower L current = lower L expected.
Proof.
  unfold verify_change, bind.
  destruct (get_current_mac H L self interface w) as [[[current|]|e] w1] eqn:G.
  - pose proof G as Hs. apply get_current_mac_found in Hs.
    rewrite (six_hex_groups_truthy Hs). cbn [andb].
    destruct (str_eqb (lower L current) (lower L expected)) eqn:E;
      cbn; [|discriminate].
    intros _. exists current. split; [assumption|].
    apply str_eqb_eq. assumption.
  - cbn. discriminate.
  - cbn. discriminate.
Qed.

(** X10: an address that passes [validate_mac] only because a newline
    ends it can never be confirmed: for such an expected address
    [verify_change] does not return [True], whatever the host shows. *)
Theorem verify_change_never_confirms_newline :
  forall (self : MACChanger) (interface m : str) (w : world),
    six_hex_groups m ->
    validate_mac (m ++ [newline]) = true
    /\ fst (verify_change H L self interface (m ++ [newline]) w) <> Ok true.
Proof.
  intros self interface m w Hm.
  split; [apply validate_mac_tail; auto|].
  intros Hv. apply verify_change_true in Hv.
  destruct Hv as (current & Hc & E).
  rewrite (lower_six Hc) in E.
  assert (A : forallb is_ascii (m ++ [newline]) = true).
  { rewrite forallb_app, (six_hex_groups_ascii Hm). reflexivity. }
  unfold lower in E. rewrite A in E.
  apply (f_equal (@length char)) in E.
  rewrite !length_map, length_app in E.
  apply six_hex_groups_length in Hm, Hc.
  rewrite Hm, Hc in E. discriminate.
Qed.

(** X11: the case of the expected letters does not matter to
    [verify_change]: the address that the interface shows is confirmed
    when it is expected with the case of its letters flipped. *)
Theorem verify_change_any_case :
  forall (self : MACChanger) (interface : str) (w w1 : world) (current : str),
    get_current_mac H L self interface w = (Ok (Some current), w1) ->
    fst (verify_change H L self interface (map flip_hex_case current) w)
    = Ok true
    /\ fst (verify_change H L self interface current w) = Ok true.
Proof.
  intros self interface w w1 current E.
  pose proof E as Hs. apply get_current_mac_found in Hs.
  rewrite !(@verify_change_run self interface _ w w1 current E).
  rewrite str_eqb_refl. split; [|reflexivity].
  f_equal. apply str_eqb_eq.
  rewrite (lower_six Hs), (lower_six (flip_hex_case_six Hs)).
  rewrite map_map. apply map_ext. intros c.
  symmetry. apply ascii_lower_flip.
Qed.

(** *** [list_interfaces] *)

End Checking.

Section Listing.

Variable H : host.
Variable L : pylib.

Local Open Scope string_scope.
Local Open Scope list_scope.

Ltac unfold_effects :=
  cbv beta iota zeta
      delta [bind try_except ret raise run check_output spawn decode_utf8
             print emit _error _info _warning _success sys_exit andb negb];
  cbn [trace draws].



Local Open Scope Z_scope.

Lemma local_unicast_keeps_bits (m : Z) (i : Z) :
  0 <= m < 256 -> 2 <= i ->
  Z.testbit (Z.lor (Z.land m 0xfe) 0x02) i = Z.testbit m i.
Proof.
  intros Hm Hi. rewrite Z.lor_spec, Z.land_spec.
  assert (T2 : Z.testbit 2 i = false).
  { apply Z.bits_above_log2; [lia|]. change (Z.log2 2) with 1. lia. }
  rewrite T2, orb_false_r.
  destruct (Z.lt_ge_cases i 8) as [Hl|Hg].
  - assert (C : i = 2 \/ i = 3 \/ i = 4 \/ i = 5 \/ i = 6 \/ i = 7) by lia.
    assert (T : Z.testbit 254 i = true).
    { repeat (destruct C as [->|C]; [reflexivity|]). subst i. reflexivity. }
    rewrite T. apply andb_true_r.
  - assert (T : Z.testbit m i = false).
    { destruct (Z.eq_dec m 0) as [->|Hz]; [apply Z.bits_0|].
      apply Z.bits_above_log2; [lia|].
      assert (Z.log2 m < 8) by (apply Z.log2_lt_pow2; [lia|]; cbn; lia).
      lia. }
    rewrite T. reflexivity.
Qed.

(** X13: the address that [generate_random_mac] returns is the six
    octets that it drew, in their order, with nothing changed but the
    two low bits of the first one; it takes six draws and neither prints
    nor starts a command. *)
Theorem generate_random_mac_keeps_the_draws :
  forall w : world,
  exists a o,
    generate_random_mac H w
    = (Ok a, {| trace := trace w; draws := 6 + draws w |})
    /\ octets_of a
       = Some o :: map (fun i => Some (entropy H (i + draws w) mod 256))
                       [1; 2; 3; 4; 5]%nat
    /\ forall i, 2 <= i ->
                 Z.testbit o i = Z.testbit (entropy H (draws w) mod 256) i.
Proof.
  intros w.
  assert (R : forall i, 0 <= entropy H (i + draws w) mod 256 < 256)
    by (intros; apply Z.mod_pos_bound; lia).
  destruct (local_unicast_octet (R 0%nat)) as (Ro & _ & _).
  eexists. exists (Z.lor (Z.land (entropy H (draws w) mod 256) 0xfe) 0x02).
  split; [apply generate_random_mac_run|].
  split.
  - cbn [map set_local_unicast].
    rewrite octets_of_format_mac; [reflexivity | discriminate |].
    apply Forall_cons; [exact Ro|].
    repeat (apply Forall_cons; [apply R|]). apply Forall_nil.
  - intros i Hi. apply local_unicast_keeps_bits; [apply (R 0%nat) | exact Hi].
Qed.

End Listing.

(* ================================================================== *)
(** ** The whole run *)
(* ================================================================== *)

Section WholeRun.

Variable H : host.
Variable L : pylib.

Local Open Scope string_scope.
Local Open Scope list_scope.

Ltac unfold_effects :=
  cbv beta iota zeta
      delta [bind try_except ret raise run check_output spawn decode_utf8
             print emit _error _info _warning _success sys_exit
             _print_banner andb negb];
  cbn [trace draws].

Lemma existsb_supported :
  existsb (str_eqb (system H)) [lit "Linux"; lit "Darwin"] = true
  <-> supported H.
Proof.
  unfold supported. cbn [existsb].
  rewrite !orb_true_iff, !str_eqb_eq. intuition discriminate.
Qed.

Lemma init_supported (w : world) :
  supported H -> __init__ H w = (Ok {| self_system := system H |}, w).
Proof.
  intros Hs. apply existsb_supported in Hs.
  unfold __init__. cbn [self_system]. rewrite Hs. reflexivity.
Qed.











(** X19: [--random] wins over [--mac]: when [--random] is given, the run
    is the same whatever [--mac] holds. *)
Theorem random_overrides_mac :
  forall (args : Args) (mac : option str) (w : world),
    args_random args = true ->
    dunder_main H L (with_mac args mac) w = dunder_main H L args w.
Proof.
  intros args mac w Hr.
  unfold dunder_main, main, with_mac.
  cbn [args_interface args_mac args_random args_list args_show].
  rewrite Hr. reflexivity.
Qed.

(** X20: when the address of the interface cannot be read before the
    change, the process ends with exit status 1 after that one reading
    command: nothing is drawn and nothing is changed, with [--random] as
    with [--mac]. *)
Theorem unreadable_interface_exits_1 :
  forall (args : Args) (w : world) (interface : str),
    supported H ->
    args_list args = false ->
    args_interface args = Some interface ->
    PyStr.truthy interface = true ->
    args_show args = false ->
    fst (get_current_mac H L {| self_system := system H |} interface
           (greeted w)) = Ok None ->
    run_tool H L args w = 1%Z
    /\ commands (trace (snd (dunder_main H L args w)))
       = commands (trace w)
         ++ [read_command {| self_system := system H |} interface]
    /\ draws (snd (dunder_main H L args w)) = draws w.
Proof.
  intros args w interface Hs Hl Hi Ht Hw Hn.
  set (self := {| self_system := system H |}) in *.
  destruct (get_current_mac_run H L self interface (greeted w))
    as (r & w1 & E & C & D & _).
  rewrite E in Hn. cbn [fst] in Hn. subst r.
  unfold greeted, printed in C, D. cbn [trace draws] in C, D.
  rewrite commands_print in C.
  unfold run_tool, dunder_main, main, try_except.
  rewrite Hl, Hi, Hw. cbn [truthy_opt]. rewrite Ht.
  unfold_effects. rewrite (init_supported w Hs). fold self.
  change {| trace := trace w ++ [Print banner]; draws := draws w |}
    with (greeted w).
  rewrite E. unfold_effects. cbn [truthy_opt]. unfold_effects.
  cbn [fst snd exit_status].
  split; [reflexivity|]. split; [exact C | exact D].
Qed.

(** X21: without [--random], when [--mac] is missing, empty or rejected
    by [validate_mac], the reading command is the only command that the
    process starts, and unless that command is interrupted the exit
    status is 1. *)
Theorem unusable_address_changes_nothing :
  forall (args : Args) (w : world) (interface : str),
    supported H ->
    args_list args = false ->
    args_interface args = Some interface ->
    PyStr.truthy interface = true ->
    args_show args = false ->
    args_random args = false ->
    (truthy_opt (args_mac args) = false
     \/ exists m, args_mac args = Some m /\ validate_mac m = false) ->
    commands (trace (snd (dunder_main H L args w)))
    = commands (trace w)
      ++ [read_command {| self_system := system H |} interface]
    /\ (os_run H (trace (greeted w))
               (read_command {| self_system := system H |} interface)
        <> Interrupted ->
        run_tool H L args w = 1%Z).
Proof.
  intros args w interface Hs Hl Hi Ht Hw Hr Hm.
  set (self := {| self_system := system H |}) in *.
  destruct (get_current_mac_run H L self interface (greeted w))
    as (r & w1 & E & C & _ & R).
  unfold greeted, printed in C. cbn [trace] in C.
  rewrite commands_print in C.
  unfold run_tool, dunder_main, main, try_except.
  rewrite Hl, Hi, Hw, Hr. cbn [truthy_opt]. rewrite Ht.
  unfold_effects. rewrite (init_supported w Hs). fold self.
  change {| trace := trace w ++ [Print banner]; draws := draws w |}
    with (greeted w).
  rewrite E.
  destruct r as [[old|]|e].
  - pose proof E as Hold. apply get_current_mac_found in Hold.
    apply six_hex_groups_truthy in Hold.
    unfold_effects. cbn [truthy_opt]. rewrite Hold. unfold_effects.
    destruct Hm as [Hm|(m & Hm & Hv)].
    + destruct (args_mac args) as [m|]; cbn [truthy_opt] in Hm;
        [rewrite Hm|]; unfold_effects; cbn [fst snd exit_status trace];
        rewrite ?commands_print; (split; [exact C | reflexivity]).
    + rewrite Hm.
      destruct (PyStr.truthy m); unfold_effects;
        [unfold change_mac; rewrite Hv; unfold_effects|];
        cbn [fst snd exit_status trace];
        rewrite ?commands_print; (split; [exact C | reflexivity]).
  - unfold_effects. cbn [truthy_opt]. unfold_effects.
    cbn [fst snd exit_status]. split; [exact C | reflexivity].
  - destruct (os_run H (trace (greeted w)) (read_command self interface));
      try discriminate R.
    injection R as ->. unfold_effects.
    cbn [fst snd exit_status trace]. rewrite commands_print.
    split; [exact C|]. intros Hni. exfalso. apply Hni. reflexivity.
Qed.

(** X22: the exit status does not tell whether the change was
    confirmed: once [change_mac] has returned [True], the process ends
    with exit status 0 whatever [verify_change] finds afterwards. *)
Theorem exit_status_ignores_verification :
  forall (args : Args) (w w1 w2 : world) (interface m old : str),
    supported H ->
    args_list args = false ->
    args_interface args = Some interface ->
    PyStr.truthy interface = true ->
    args_show args = false ->
    args_random args = false ->
    args_mac args = Some m ->
    PyStr.truthy m = true ->
    get_current_mac H L {| self_system := system H |} interface (greeted w)
    = (Ok (Some old), w1) ->
    change_mac H L {| self_system := system H |} interface m
               (printed (info_line (lit "Current MAC address: " ++ old)) w1)
    = (Ok true, w2) ->
    run_tool H L args w = 0%Z.
Proof.
  intros args w w1 w2 interface m old Hs Hl Hi Ht Hw Hr Hm Htm Eg Ec.
  set (self := {| self_system := system H |}) in *.
  destruct (verify_change H L self interface m w2) as [r3 w3] eqn:Ev.
  pose proof (raises_verify_change H L self interface m _ Ev) as R.
  pose proof Eg as Hold. apply get_current_mac_found in Hold.
  apply six_hex_groups_truthy in Hold.
  unfold printed, info_line in Ec.
  unfold run_tool, dunder_main, main, try_except.
  rewrite Hl, Hi, Hw, Hr, Hm. cbn [truthy_opt]. rewrite Ht, Htm.
  unfold_effects. rewrite (init_supported w Hs). fold self.
  change {| trace := trace w ++ [Print banner]; draws := draws w |}
    with (greeted w).
  rewrite Eg. unfold_effects. cbn [truthy_opt]. rewrite Hold. unfold_effects.
  rewrite Ec. unfold_effects. rewrite Ev.
  destruct r3 as [b|e].
  - reflexivity.
  - cbn in R. rewrite R. reflexivity.
Qed.

End WholeRun.

(* ================================================================== *)
(** ** More runs on the sample hosts *)
(* ================================================================== *)

Section MoreRuns.

Local Open Scope string_scope.
Local Open Scope list_scope.

Lemma linux_host_supported : supported linux_host.
Proof. left. reflexivity. Qed.

Lemma linux_host_never_interrupted (history : list event) (argv : list str) :
  os_run linux_host history argv <> Interrupted.
Proof.
  cbn [os_run linux_host]. destruct argv as [|first rest]; [discriminate|].
  destruct (str_eqb first (lit "ip")); discriminate.
Qed.

(** X4 on the Linux host: the address read on [eth0]. *)
Lemma get_current_mac_returns_valid_witness :
  fst (get_current_mac linux_host sample_lib linux (lit "eth0") initial_world)
  = Ok (Some (lit "02:1a:3c:4d:5e:6f"))
  /\ validate_mac (lit "02:1a:3c:4d:5e:6f") = true
  /\ length (lit "02:1a:3c:4d:5e:6f") = 17.
Proof.
  split; [vm_compute; reflexivity|].
  apply (@get_current_mac_returns_valid linux_host sample_lib linux
           (lit "eth0") initial_world
           (snd (get_current_mac linux_host sample_lib linux (lit "eth0")
                   initial_world))).
  vm_compute. reflexivity.
Defined.

(** X7 on a host that refuses the new address: [down] and [address]
    are started, [up] is not. *)
Lemma change_mac_leaves_interface_down_witness :
  fst (change_mac refusing_host sample_lib linux (lit "eth0")
         (lit "aa:bb:cc:dd:ee:ff") initial_world) <> Ok true
  /\ commands (trace (snd (change_mac refusing_host sample_lib linux
                             (lit "eth0") (lit "aa:bb:cc:dd:ee:ff")
                             initial_world)))
     = commands (trace initial_world)
       ++ [down_command (lit "eth0");
           address_command (lit "eth0") (lit "aa:bb:cc:dd:ee:ff")].
Proof.
  apply (@change_mac_leaves_interface_down refusing_host sample_lib linux
           (lit "eth0") (lit "aa:bb:cc:dd:ee:ff") initial_world
           [] [] 2%Z [] (blit "RTNETLINK answers: Operation not permitted")).
  - reflexivity.
  - reflexivity.
  - vm_compute. reflexivity.
  - vm_compute. reflexivity.
  - discriminate.
Defined.

(** X8 on the macOS host, where [airport -z] exits with status 1. *)
Lemma change_mac_ignores_airport_status_witness :
  os_run darwin_host
         (trace (announced (lit "en0") (lit "aa:bb:cc:dd:ee:ff") initial_world))
         airport_command
  = Exited 1 [] []
  /\ fst (change_mac darwin_host sample_lib darwin (lit "en0")
            (lit "aa:bb:cc:dd:ee:ff") initial_world) = Ok true.
Proof.
  split; [vm_compute; reflexivity|].
  rewrite (@change_mac_ignores_airport_status darwin_host sample_lib darwin
             (lit "en0") (lit "aa:bb:cc:dd:ee:ff") initial_world
             1%Z [] [] [] []).
  - reflexivity.
  - reflexivity.
  - reflexivity.
  - vm_compute. reflexivity.
  - vm_compute. reflexivity.
Defined.


(** X10 on the Linux host. *)
Lemma verify_change_never_confirms_newline_witness :
  six_hex_groups (lit "02:1a:3c:4d:5e:6f")
  /\ validate_mac (lit "02:1a:3c:4d:5e:6f" ++ [newline]) = true
  /\ fst (verify_change linux_host sample_lib linux (lit "eth0")
            (lit "02:1a:3c:4d:5e:6f" ++ [newline]) initial_world) <> Ok true.
Proof.
  assert (Hm : six_hex_groups (lit "02:1a:3c:4d:5e:6f"))
    by (apply six_hex_groups_check; reflexivity).
  split; [exact Hm|].
  apply (@verify_change_never_confirms_newline linux_host sample_lib linux
           (lit "eth0") (lit "02:1a:3c:4d:5e:6f") initial_world Hm).
Defined.

(** X11 on the Linux host. *)
Lemma verify_change_any_case_witness :
  map flip_hex_case (lit "02:1a:3c:4d:5e:6f") = lit "02:1A:3C:4D:5E:6F"
  /\ fst (verify_change linux_host sample_lib linux (lit "eth0")
            (map flip_hex_case (lit "02:1a:3c:4d:5e:6f")) initial_world)
     = Ok true
  /\ fst (verify_change linux_host sample_lib linux (lit "eth0")
            (lit "02:1a:3c:4d:5e:6f") initial_world) = Ok true.
Proof.
  split; [reflexivity|].
  apply (@verify_change_any_case linux_host sample_lib linux (lit "eth0")
           initial_world
           (snd (get_current_mac linux_host sample_lib linux (lit "eth0")
                   initial_world))
           (lit "02:1a:3c:4d:5e:6f")).
  vm_compute. reflexivity.
Defined.






(** X19 on the Linux host: an address that [validate_mac] rejects does
    no harm next to [--random]. *)
Lemma random_overrides_mac_witness :
  dunder_main linux_host sample_lib
    (with_mac random_args (Some (lit "not an address"))) initial_world
  = dunder_main linux_host sample_lib random_args initial_world.
Proof.
  apply (@random_overrides_mac linux_host sample_lib random_args
           (Some (lit "not an address")) initial_world).
  reflexivity.
Defined.

(** X20 on a host without the interface. *)
Lemma unreadable_interface_exits_1_witness :
  run_tool bare_host sample_lib random_args initial_world = 1%Z
  /\ commands (trace (snd (dunder_main bare_host sample_lib random_args
                             initial_world)))
     = commands (trace initial_world) ++ [read_command linux (lit "eth0")]
  /\ draws (snd (dunder_main bare_host sample_lib random_args initial_world))
     = draws initial_world.
Proof.
  apply (@unreadable_interface_exits_1 bare_host sample_lib random_args
           initial_world (lit "eth0")).
  - left. reflexivity.
  - reflexivity.
  - reflexivity.
  - reflexivity.
  - reflexivity.
  - vm_compute. reflexivity.
Defined.

(** X21 on the Linux host, with the five-group address. *)
Lemma unusable_address_changes_nothing_witness :
  commands (trace (snd (dunder_main linux_host sample_lib
                          (set_mac_args (lit "00:11:22:33:44"))
                          initial_world)))
  = commands (trace initial_world) ++ [read_command linux (lit "eth0")]
  /\ run_tool linux_host sample_lib (set_mac_args (lit "00:11:22:33:44"))
       initial_world = 1%Z.
Proof.
  destruct (@unusable_address_changes_nothing linux_host sample_lib
              (set_mac_args (lit "00:11:22:33:44")) initial_world
              (lit "eth0") linux_host_supported eq_refl eq_refl eq_refl
              eq_refl eq_refl
              (or_intror (ex_intro _ (lit "00:11:22:33:44")
                                   (conj eq_refl eq_refl))))
    as [A B].
  split; [exact A|]. apply B. apply linux_host_never_interrupted.
Defined.

(** X22 on a host whose address never changes: [change_mac] returns
    [True], [verify_change] returns [False], the exit status is 0. *)
Lemma exit_status_ignores_verification_witness :
  fst (verify_change stubborn_host sample_lib linux (lit "eth0")
         (lit "aa:bb:cc:dd:ee:ff")
         (snd (change_mac stubborn_host sample_lib linux (lit "eth0")
                 (lit "aa:bb:cc:dd:ee:ff")
                 (printed (info_line (lit "Current MAC address: "
                                      ++ lit "02:1a:3c:4d:5e:6f"))
                    (snd (get_current_mac stubborn_host sample_lib linux
                            (lit "eth0") (greeted initial_world)))))))
  = Ok false
  /\ run_tool stubborn_host sample_lib
       (set_mac_args (lit "aa:bb:cc:dd:ee:ff")) initial_world = 0%Z.
Proof.
  split; [vm_compute; reflexivity|].
  apply (@exit_status_ignores_verification stubborn_host sample_lib
           (set_mac_args (lit "aa:bb:cc:dd:ee:ff")) initial_world
           (snd (get_current_mac stubborn_host sample_lib linux
                   (lit "eth0") (greeted initial_world)))
           (snd (change_mac stubborn_host sample_lib linux (lit "eth0")
                   (lit "aa:bb:cc:dd:ee:ff")
                   (printed (info_line (lit "Current MAC address: "
                                        ++ lit "02:1a:3c:4d:5e:6f"))
                      (snd (get_current_mac stubborn_host sample_lib linux
                              (lit "eth0") (greeted initial_world))))))
           (lit "eth0") (lit "aa:bb:cc:dd:ee:ff") (lit "02:1a:3c:4d:5e:6f")).
  - left. reflexivity.
  - reflexivity.
  - reflexivity.
  - reflexivity.
  - reflexivity.
  - reflexivity.
  - reflexivity.
  - reflexivity.
  - vm_compute. reflexivity.
  - vm_compute. reflexivity.
Defined.

End MoreRuns.

(* ================================================================== *)
(** ** Nothing is changed with an address that was not checked *)
(* ================================================================== *)

Section Safety.

Variable H : host.
Variable L : pylib.

Local Open Scope string_scope.
Local Open Scope list_scope.

Lemma emits_weaken (Q Q' : event -> Prop) {A : Type} (c : M A) :
  (forall ev, Q ev -> Q' ev) -> emits Q c -> emits Q' c.
Proof.
  intros Hw Hc w r w' E. destruct (Hc _ _ _ E) as (added & T & F).
  exists added. split; [exact T|].
  eapply Forall_impl; [|exact F]. exact Hw.
Qed.

Lemma emits_replicateM (Q : event -> Prop) {A : Type} (n : nat) (c : M A) :
  emits Q c -> emits Q (replicateM n c).
Proof.
  intros Hc. induction n as [|n IH]; cbn [replicateM].
  - apply emits_ret.
  - apply emits_bind; [exact Hc|]. intros x.
    apply emits_bind; [exact IH|]. intros xs. apply emits_ret.
Qed.

Lemma emits_run (Q : event -> Prop) (argv : list str) (check piped : bool) :
  Q (Exec argv) -> emits Q (run H argv check piped).
Proof.
  intros Hq. unfold run. apply emits_bind.
  - apply emits_spawn. exact Hq.
  - intros [[rc out] err]. destruct (check && negb (rc =? 0)%Z);
      [apply emits_raise | apply emits_ret].
Qed.

Lemma unprivileged_checked (self : MACChanger) (interface : str) (ev : event) :
  unprivileged ev -> checked_change self interface ev.
Proof. destruct ev as [line|argv]; cbn; auto. Qed.

Lemma emits_change_mac (self : MACChanger) (interface new_mac : str) :
  emits (checked_change self interface)
        (change_mac H L self interface new_mac).
Proof.
  unfold change_mac, _error, _info, _warning.
  destruct (validate_mac new_mac) eqn:Hv; cbn [negb].
  - apply emits_bind; [apply emits_print; exact I|]. intros _.
    apply emits_try.
    + apply emits_bind; [|intros; apply emits_ret].
      assert (Hc : forall argv,
                 In argv (change_commands self interface new_mac) ->
                 checked_change self interface (Exec argv)).
      { intros argv Hi. right. exists new_mac. auto. }
      unfold change_commands in Hc.
      destruct (str_eqb (self_system self) (lit "Darwin"));
        repeat (apply emits_bind;
                [apply emits_run; apply Hc; cbn [In]; tauto | intros _]);
        apply emits_run; apply Hc; cbn [In]; tauto.
    + intros [[cmd rc err|object|msg]| |code] handler E;
        try discriminate; injection E as <-.
      * apply emits_bind.
        -- destruct err as [err|]; [|apply emits_ret].
           destruct (PyBytes.truthy err);
             [apply emits_decode_utf8 | apply emits_ret].
        -- intros detail.
           apply emits_bind; [apply emits_print; exact I | intros _].
           apply emits_bind; [apply emits_print; exact I | intros _].
           apply emits_ret.
      * apply emits_bind;
          [apply emits_print; exact I | intros _; apply emits_ret].
      * apply emits_bind;
          [apply emits_print; exact I | intros _; apply emits_ret].
  - apply emits_bind; [apply emits_print; exact I | intros _; apply emits_ret].
Qed.

Lemma emits_init (Q : event -> Prop) :
  (forall line, Q (Print line)) -> emits Q (__init__ H).
Proof.
  intros Hq. unfold __init__, _error, sys_exit. destruct (negb _).
  - apply emits_bind; [apply emits_print; apply Hq|]. intros _.
    apply emits_raise.
  - apply emits_ret.
Qed.

Lemma init_returns (w w' : world) (changer : MACChanger) :
  __init__ H w = (Ok changer, w') ->
  changer = {| self_system := system H |}.
Proof.
  unfold __init__, _error, sys_exit. destruct (negb _); cbn.
  - discriminate.
  - intros E. injection E as <- _. reflexivity.
Qed.

(** Every event of [main] is a checked one. *)
Lemma emits_main (args : Args) :
  emits (checked_change {| self_system := system H |} (interface_of args))
        (main H L args).
Proof.
  set (self := {| self_system := system H |}).
  set (Q := checked_change self (interface_of args)).
  assert (Hp : forall line, Q (Print line)) by (intros; exact I).
  assert (Hu : forall A (c : M A), emits unprivileged c -> emits Q c).
  { intros A c. apply emits_weaken. apply unprivileged_checked. }
  intros w r w' E. unfold main in E. unfold bind at 1 in E.
  destruct (__init__ H w) as [[changer|e] w0] eqn:Ei.
  - pose proof (init_returns _ Ei) as ->. fold self in E.
    destruct (emits_init Q Hp _ Ei) as (a0 & T0 & F0).
    revert E.
    match goal with
    | |- ?c w0 = _ -> _ => assert (Hc : emits Q c)
    end.
    { unfold _print_banner, _info, _error, sys_exit.
      apply emits_bind; [apply emits_print; apply Hp|]. intros _.
      apply emits_bind.
      { destruct (args_list args); [|apply emits_ret].
        apply emits_bind; [apply Hu; apply emits_list_interfaces|].
        intros _. apply emits_raise. }
      intros _. apply emits_bind.
      { destruct (_ && _); [|apply emits_ret].
        apply emits_bind; [apply emits_print; apply Hp|]. intros _.
        apply emits_raise. }
      intros _. cbv zeta. fold (interface_of args).
      apply emits_bind.
      { destruct (args_show args); [|apply emits_ret].
        apply emits_bind; [apply Hu; apply emits_get_current_mac|].
        intros current_mac. apply emits_bind.
        - destruct current_mac as [current|]; [|apply emits_ret].
          destruct (PyStr.truthy current);
            [apply emits_print; apply Hp | apply emits_ret].
        - intros _. apply emits_raise. }
      intros _.
      apply emits_bind; [apply Hu; apply emits_get_current_mac|].
      intros old_mac.
      apply emits_bind.
      { destruct (negb _); [apply emits_raise | apply emits_ret]. }
      intros _.
      apply emits_bind; [apply emits_print; apply Hp|]. intros _.
      apply emits_bind.
      { destruct (args_random args).
        - apply emits_bind.
          + unfold generate_random_mac. apply emits_bind.
            * apply emits_replicateM. apply emits_randint.
            * intros mac. apply emits_ret.
          + intros new_mac.
            apply emits_bind;
              [apply emits_print; apply Hp | intros _; apply emits_ret].
        - destruct (args_mac args) as [m|].
          + destruct (PyStr.truthy m); [apply emits_ret|].
            apply emits_bind; [apply emits_print; apply Hp|]. intros _.
            apply emits_raise.
          + apply emits_bind; [apply emits_print; apply Hp|]. intros _.
            apply emits_raise. }
      intros new_mac.
      apply emits_bind; [apply emits_change_mac|].
      intros [|]; [|apply emits_raise].
      apply emits_bind; [apply Hu; apply emits_verify_change|].
      intros _. apply emits_ret. }
    intros E. destruct (Hc _ _ _ E) as (a1 & T1 & F1).
    exists (a0 ++ a1). split; [rewrite T1, T0; symmetry; apply app_assoc|].
    apply Forall_app; auto.
  - injection E as <- <-. exact (emits_init Q Hp _ Ei).
Qed.

(** X23: whatever the command line and the host, every command that the
    process starts through [sudo] is one of the commands of [change_mac]
    for the interface of the command line and for an address that
    passes [validate_mac]. *)
Theorem no_unchecked_change :
  forall (args : Args) (w : world),
  exists added,
    trace (snd (dunder_main H L args w)) = trace w ++ added
    /\ Forall (checked_change {| self_system := system H |}
                              (interface_of args)) added.
Proof.
  intros args w. unfold dunder_main.
  assert (Hd : emits (checked_change {| self_system := system H |}
                                     (interface_of args))
                     (try_except (main H L args)
                        (fun e =>
                           match e with
                           | KeyboardInterrupt =>
                               Some (bind (print ([newline] ++ Colors.YELLOW
                                            ++ lit "[!] Operation cancelled by user."
                                            ++ Colors.END))
                                          (fun _ => sys_exit 0))
                           | Exc e =>
                               Some (bind (print (Colors.RED
                                            ++ lit "[-] Unexpected error: "
                                            ++ str_of_exception L e
                                            ++ Colors.END))
                                          (fun _ => sys_exit 1))
                           | SystemExit _ => None
                           end))).
  { apply emits_try; [apply emits_main|].
    intros [e| |code] handler E; try discriminate; injection E as <-;
      (apply emits_bind; [apply emits_print; exact I|]);
      intros _; apply emits_raise. }
  destruct (try_except _ _ w) as [r w'] eqn:E.
  exact (Hd _ _ _ E).
Qed.

End Safety.
